(** * AI Prompt Enhancer: the background worker's rewriting pipeline,
      request handler and usage statistics, and the modal's request.

    The development embeds the background service worker (the message
    handler [handlePromptEnhancement], the rewriter [processEnhancement]
    with its three steps, [logUsage], [cleanupOldUsageData]) and the one
    line of the content script that builds the request.

    Strings.  A JavaScript string is a sequence of UTF-16 code units and
    [.length] counts them.  Here a string is a [string] of 8-bit
    characters read as the code units U+0000 to U+00FF, so the model
    covers the prompts written in Latin-1; on that range [toLowerCase],
    [trim] and [includes] below are the ECMAScript functions.

    Numbers.  Counters and timestamps are integers ([Z]); JavaScript
    keeps integers exactly up to 2^53.  The improvement percentage is
    computed on IEEE binary64 numbers ([spec_float] at precision 53),
    as the code does. *)

From Stdlib Require Import ZArith Ascii String SpecFloat.
From stdpp Require Import gmap strings list fin_maps.

(** ** JavaScript strings *)

Module JsString.

(** [String.prototype.toLowerCase] on one code unit below U+0100:
    A-Z, and the Latin-1 capitals U+00C0-U+00DE except the
    multiplication sign U+00D7, move up by 32. *)
Definition lower_char (c : ascii) : ascii :=
  let n := N_of_ascii c in
  if ((65 <=? n) && (n <=? 90)
      || (192 <=? n) && (n <=? 222) && negb (n =? 215))%N
  then ascii_of_N (n + 32) else c.

Fixpoint toLowerCase (s : string) : string :=
  match s with
  | EmptyString => EmptyString
  | String c s' => String (lower_char c) (toLowerCase s')
  end.

(** [s.includes(search)]: [search] occurs in [s] at some index. *)
Fixpoint includes (s search : string) : bool :=
  String.prefix search s
  || match s with
     | EmptyString => false
     | String _ s' => includes s' search
     end.

Definition startsWith (s search : string) : bool := String.prefix search s.

(** [s.endsWith(search)]: dropping [s.length - search.length] code
    units from [s] leaves [search]. *)
Definition endsWith (s search : string) : bool :=
  let n := String.length s in
  let k := String.length search in
  (k <=? n)%nat && String.eqb (String.substring (n - k) k s) search.

(** White space and line terminators of ECMAScript below U+0100: TAB,
    LF, VT, FF, CR, SP and NBSP. *)
Definition is_white_space (c : ascii) : bool :=
  let n := N_of_ascii c in
  ((9 <=? n) && (n <=? 13) || (n =? 32) || (n =? 160))%N.

Fixpoint trimStart (s : string) : string :=
  match s with
  | EmptyString => EmptyString
  | String c s' => if is_white_space c then trimStart s' else s
  end.

Fixpoint trimEnd (s : string) : string :=
  match s with
  | EmptyString => EmptyString
  | String c s' =>
      match trimEnd s' with
      | EmptyString => if is_white_space c then EmptyString else String c EmptyString
      | r => String c r
      end
  end.

Definition trim (s : string) : string := trimEnd (trimStart s).

Definition is_empty (s : string) : bool :=
  match s with EmptyString => true | _ => false end.

(** The two line feeds that open every appended sentence. *)
Definition LFLF : string := String "010" (String "010" EmptyString).

End JsString.
Import JsString.

(** ** JavaScript values and completions *)

(** What a message can carry.  The rewriter only calls string methods on
    its prompt, so of a value that is not a string nothing is observed
    but that it has no such method. *)
Inductive jsval : Type :=
  | JUndefined
  | JNull
  | JBool (b : bool)
  | JNum (x : spec_float)
  | JStr (s : string)
  | JObject.

(** A completion: a value is returned or an exception of type [E] is
    thrown. *)
Inductive completion (E A : Type) : Type :=
  | Return (a : A)
  | Throw (e : E).
Arguments Return {E A} a.
Arguments Throw {E A} e.

Global Instance completion_ret {E} : MRet (completion E) := fun A a => Return a.

Global Instance completion_bind {E} : MBind (completion E) := fun A B k c =>
  match c with
  | Return a => k a
  | Throw e => Throw e
  end.

(** [try { body } catch (error) { handler }]. *)
Definition try_catch {E E' A} (body : completion E A)
    (handler : E -> completion E' A) : completion E' A :=
  match body with
  | Return a => Return a
  | Throw e => handler e
  end.

(** The engine's [TypeError]; its message is only ever logged. *)
Inductive TypeError : Type := mkTypeError.

(** [new Error(message)]. *)
Record Error : Type := mkError { message : string }.

(** A function whose every path returns. *)
Inductive never : Type := .

Definition returned {A} (c : completion never A) : A :=
  match c with
  | Return a => a
  | Throw e => match e with end
  end.

(** The receiver of [enhanced.toLowerCase()]: a string, or a value on
    which the call raises [TypeError]. *)
Definition string_receiver (v : jsval) : completion TypeError string :=
  match v with
  | JStr s => Return s
  | _ => Throw mkTypeError
  end.

(** ** The rewriter *)

Record Options : Type := mkOptions {
  enhanceClarity : bool;
  addContext : bool;
  improveStructure : bool
}.

Definition CLARITY_PREFIX : string := "Please ".
Definition CLARITY_CLOSING : string :=
  LFLF +:+ "Please provide a clear, well-structured response.".
Definition CONTEXT_PREFIX : string :=
  "As an AI assistant with expertise in this area, ".
Definition CONTEXT_CLOSING : string :=
  LFLF +:+ "Please explain this in a way that would be helpful for someone learning about this topic.".
Definition STRUCTURE_ORGANIZE : string :=
  LFLF +:+ "Please organize your response with clear sections, bullet points, or numbered steps where appropriate.".
Definition STRUCTURE_SUMMARY : string :=
  LFLF +:+ "Please provide a brief summary or key takeaways at the end.".

(** The [try] block of [enhanceClarityLogic] once [enhanced] is known to
    be a string. *)
Definition clarity_text (prompt : string) : string :=
  let enhanced := prompt in
  let enhanced :=
    if negb (includes (toLowerCase enhanced) "please")
       && negb (includes (toLowerCase enhanced) "could you")
    then CLARITY_PREFIX +:+ enhanced else enhanced in
  let enhanced :=
    if negb (includes (toLowerCase enhanced) "format")
       && negb (includes (toLowerCase enhanced) "output")
    then enhanced +:+ CLARITY_CLOSING else enhanced in
  enhanced.

Definition context_text (prompt : string) : string :=
  let enhanced := prompt in
  let enhanced :=
    if negb (includes (toLowerCase enhanced) "as a")
       && negb (includes (toLowerCase enhanced) "acting as")
    then CONTEXT_PREFIX +:+ enhanced else enhanced in
  let enhanced :=
    if negb (includes (toLowerCase enhanced) "for")
       && negb (includes (toLowerCase enhanced) "targeting")
    then enhanced +:+ CONTEXT_CLOSING else enhanced in
  enhanced.

Definition structure_text (prompt : string) : string :=
  let enhanced := prompt in
  let enhanced :=
    if negb (includes (toLowerCase enhanced) "list")
       && negb (includes (toLowerCase enhanced) "bullet")
       && negb (includes (toLowerCase enhanced) "step")
    then enhanced +:+ STRUCTURE_ORGANIZE else enhanced in
  let enhanced :=
    if negb (includes (toLowerCase enhanced) "summary")
       && negb (includes (toLowerCase enhanced) "conclusion")
    then enhanced +:+ STRUCTURE_SUMMARY else enhanced in
  enhanced.

(** The [try] block of a step: the first [enhanced.toLowerCase()] raises
    unless [prompt] is a string. *)
Definition step_try (text : string -> string) (prompt : jsval)
  : completion TypeError jsval :=
  enhanced ← string_receiver prompt;
  Return (JStr (text enhanced)).

(** A step: [try { ... return enhanced } catch (error) { return prompt }]. *)
Definition step (text : string -> string) (prompt : jsval) : jsval :=
  returned (try_catch (step_try text prompt) (fun _ => Return prompt)).

Definition enhanceClarityLogic : jsval -> jsval := step clarity_text.
Definition addContextLogic : jsval -> jsval := step context_text.
Definition improveStructureLogic : jsval -> jsval := step structure_text.

(** [options.enhanceClarity] and the like: reading a property of
    [undefined] or [null] raises [TypeError]. *)
Definition read_options (options : option Options) : completion TypeError Options :=
  match options with
  | Some o => Return o
  | None => Throw mkTypeError
  end.

Definition PROCESS_FAILED : string := "Failed to process prompt enhancement".

Definition processEnhancement (prompt : jsval) (options : option Options)
  : completion Error jsval :=
  let enhanced := prompt in
  try_catch
    (o ← read_options options;
     let enhanced :=
       if enhanceClarity o then enhanceClarityLogic enhanced else enhanced in
     let enhanced :=
       if addContext o then addContextLogic enhanced else enhanced in
     let enhanced :=
       if improveStructure o then improveStructureLogic enhanced else enhanced in
     Return enhanced)
    (fun _ => Throw (mkError PROCESS_FAILED)).

(** The guard substrings of the six insertions, as the steps test them. *)
Definition CLARITY_PREFIX_GUARDS : list string := ["please"; "could you"].
Definition CLARITY_CLOSING_GUARDS : list string := ["format"; "output"].
Definition CONTEXT_PREFIX_GUARDS : list string := ["as a"; "acting as"].
Definition CONTEXT_CLOSING_GUARDS : list string := ["for"; "targeting"].
Definition STRUCTURE_ORGANIZE_GUARDS : list string := ["list"; "bullet"; "step"].
Definition STRUCTURE_SUMMARY_GUARDS : list string := ["summary"; "conclusion"].

(** [processEnhancement] on a string and an options object, as a
    function on strings ([processEnhancement_string] relates the two). *)
Definition enhanced_text (o : Options) (prompt : string) : string :=
  let enhanced := prompt in
  let enhanced := if enhanceClarity o then clarity_text enhanced else enhanced in
  let enhanced := if addContext o then context_text enhanced else enhanced in
  let enhanced := if improveStructure o then structure_text enhanced else enhanced in
  enhanced.

(** One of [guards] occurs in the lower-cased text. *)
Definition mentions (text : string) (guards : list string) : bool :=
  existsb (includes (toLowerCase text)) guards.

(** A text [r] extends [s]: [s] stands in it between a prefix and a
    suffix.  Every step only prepends and appends. *)
Definition extends (s r : string) : Prop :=
  exists before after, r = before +:+ s +:+ after.

(** ** Numbers: IEEE binary64 *)

Module JsNumber.

Definition number : Type := spec_float.
Definition prec : Z := 53.
Definition emax : Z := 1024.

(** The number nearest to an integer (exact up to 2^53). *)
Definition of_Z (z : Z) : number := binary_normalize prec emax z 0 false.
Definition sub : number -> number -> number := SFsub prec emax.
Definition div : number -> number -> number := SFdiv prec emax.
Definition mul : number -> number -> number := SFmul prec emax.

(** [Math.round]: the integer nearest to [x], a tie going up; NaN, the
    infinities and the zeros are returned as they are, and a result of
    zero keeps the sign of [x].  A finite number with a non-negative
    exponent is an integer already; otherwise x = +-m / 2^(-e) and the
    result is floor (x + 1/2), computed on integers. *)
Definition Math_round (x : number) : number :=
  match x with
  | S754_finite s m e =>
      if (0 <=? e)%Z then x
      else
        let k := (2 ^ (- e))%Z in
        let sm := if s then Z.neg m else Z.pos m in
        let n := ((2 * sm + k) / (2 * k))%Z in
        if (n =? 0)%Z then S754_zero s else of_Z n
  | _ => x
  end.

End JsNumber.

(** ** The response and the stored usage statistics *)

Module CONFIG.
Definition maxRetries : nat := 3.
Definition maxStorageEntries : nat := 100.
Definition dataRetentionDays : Z := 30.
End CONFIG.

Record Stats : Type := mkStats {
  originalLength : Z;
  enhancedLength : Z;
  improvement : JsNumber.number
}.

Record Response : Type := mkResponse {
  success : bool;
  enhancedPrompt : option string;
  stats : option Stats;
  error : option string
}.

(** The second argument of [logUsage]: the handler's record of one
    enhancement, or any other object. *)
Inductive usage_data : Type :=
  | EnhancementData (originalLength enhancedLength : Z)
      (options : option Options) (source : string)
  | OtherData (data : jsval).

Record entry : Type := mkEntry {
  timestamp : Z;
  data : usage_data
}.

(** [chrome.storage.local]: a key is absent ([None]) or holds a value.
    [usageStats] maps an action to its list of events, oldest first. *)
Record Storage : Type := mkStorage {
  usageStats : option (gmap string (list entry));
  totalPrompts : option Z;
  totalEnhancements : option Z;
  lastUpdated : option Z
}.

Definition initial_storage : Storage := mkStorage None None None None.

(** What one call finds around it: the clock, and whether
    [chrome.runtime.lastError] is set after the read and after the write
    of the storage. *)
Record Env : Type := mkEnv {
  now : Z;
  get_lastError : bool;
  set_lastError : bool
}.

(** [x || d] on a stored value that, when present, is truthy (an object). *)
Definition or_default {A} (x : option A) (d : A) : A :=
  match x with Some a => a | None => d end.

(** [x || 0] on a stored number: an absent key and a stored 0 both read 0. *)
Definition or_zero (x : option Z) : Z :=
  match x with Some a => a | None => 0%Z end.

(** The property names every object literal inherits from
    [Object.prototype]: [usageStats[action]] is truthy for them and has
    no [push]. *)
Definition Object_prototype_keys : list string :=
  [ "constructor"; "__defineGetter__"; "__defineSetter__"; "hasOwnProperty";
    "__lookupGetter__"; "__lookupSetter__"; "isPrototypeOf";
    "propertyIsEnumerable"; "toString"; "valueOf"; "__proto__";
    "toLocaleString" ].

(** [events.slice(-n)]: the last [n] elements. *)
Definition slice_last {A} (n : nat) (events : list A) : list A :=
  drop (length events - n) events.

Definition PROMPT_ENHANCED : string := "prompt_enhanced".

(** What the [catch] of [logUsage] and of [cleanupOldUsageData] can
    receive: the rejection of a storage promise, or the [TypeError] of
    [push]. *)
Inductive logged_error : Type :=
  | StorageError
  | PushTypeError.

(** The promise around [chrome.storage.local.get] or [set]. *)
Definition storage_promise (lastError : bool) : completion logged_error unit :=
  if lastError then Throw StorageError else Return ().

(** The [try] block of [logUsage]; a failed read, a failed write and the
    [TypeError] of [push] on an inherited property all leave it before
    the storage is written. *)
Definition logUsage_try (env : Env) (action : string) (d : usage_data)
    (st : Storage) : completion logged_error Storage :=
  let timestamp := now env in
  _ ← storage_promise (get_lastError env);
  let usageStats0 := or_default (usageStats st) ∅ in
  let totalPrompts0 := or_zero (totalPrompts st) in
  let totalEnhancements0 := or_zero (totalEnhancements st) in
  events ← (match usageStats0 !! action with
            | Some events => Return events
            | None =>
                if bool_decide (action ∈ Object_prototype_keys)
                then Throw PushTypeError else Return []
            end);
  let events := events ++ [mkEntry timestamp d] in
  let events :=
    if (CONFIG.maxStorageEntries <? length events)%nat
    then slice_last CONFIG.maxStorageEntries events else events in
  let usageStats1 := <[action := events]> usageStats0 in
  let '(newTotalPrompts, newTotalEnhancements) :=
    if bool_decide (action = PROMPT_ENHANCED)
    then (totalPrompts0 + 1, totalEnhancements0 + 1)%Z
    else (totalPrompts0, totalEnhancements0) in
  _ ← storage_promise (set_lastError env);
  Return (mkStorage (Some usageStats1) (Some newTotalPrompts)
            (Some newTotalEnhancements) (Some timestamp)).

(** [logUsage]: the [catch] logs the error and returns; the storage is
    then as it was. *)
Definition logUsage (env : Env) (action : string) (d : usage_data)
    (st : Storage) : Storage :=
  returned (try_catch (logUsage_try env action d st) (fun _ => Return st)).

Definition cutoffDate (env : Env) : Z :=
  (now env - CONFIG.dataRetentionDays * 24 * 60 * 60 * 1000)%Z.

(** The body of the [forEach] of [cleanupOldUsageData] on one action:
    the events newer than the cutoff, and no entry at all when none is. *)
Definition retained (cutoff : Z) (events : list entry) : option (list entry) :=
  match filter (fun e => (cutoff < timestamp e)%Z) events with
  | [] => None
  | kept => Some kept
  end.

(** The [try] block of [cleanupOldUsageData]: [cleaned] is set only
    where an action loses its whole list, and the filtered map is
    written back only when [cleaned] is set. *)
Definition cleanupOldUsageData_try (env : Env) (st : Storage)
  : completion logged_error Storage :=
  let cutoff := cutoffDate env in
  _ ← storage_promise (get_lastError env);
  let usageStats0 := or_default (usageStats st) ∅ in
  let cleaned :=
    bool_decide (map_Exists (fun _ events => retained cutoff events = None)
                   usageStats0) in
  let usageStats1 := omap (retained cutoff) usageStats0 in
  if cleaned then
    _ ← storage_promise (set_lastError env);
    Return (mkStorage (Some usageStats1) (totalPrompts st)
              (totalEnhancements st) (lastUpdated st))
  else Return st.

Definition cleanupOldUsageData (env : Env) (st : Storage) : Storage :=
  returned (try_catch (cleanupOldUsageData_try env st) (fun _ => Return st)).

(** The states of the storage that calls of [logUsage] lead to. *)
Inductive reachable : Storage -> Prop :=
  | reachable_initial : reachable initial_storage
  | reachable_logUsage env action d st :
      reachable st -> reachable (logUsage env action d st).

(** The events stored for an action ([[]] when it has none). *)
Definition stored_events (st : Storage) (action : string) : list entry :=
  or_default ((or_default (usageStats st) ∅) !! action) [].

(** No action holds more events than [CONFIG.maxStorageEntries]. *)
Definition within_cap (st : Storage) : Prop :=
  forall action events,
    (or_default (usageStats st) ∅) !! action = Some events ->
    length events <= CONFIG.maxStorageEntries.

(** The states that calls of [logUsage] and runs of the cleanup lead to. *)
Inductive reachable_with_cleanup : Storage -> Prop :=
  | rwc_initial : reachable_with_cleanup initial_storage
  | rwc_logUsage env action d st :
      reachable_with_cleanup st ->
      reachable_with_cleanup (logUsage env action d st)
  | rwc_cleanup env st :
      reachable_with_cleanup st ->
      reachable_with_cleanup (cleanupOldUsageData env st).

(** A storage with one action and two events, the first of them written
    31 days before the second, and a cleanup at the time of the second. *)
Definition DAY : Z := (24 * 60 * 60 * 1000)%Z.
Definition stale_entry : entry := mkEntry 1700000000000 (OtherData JObject).
Definition fresh_entry : entry :=
  mkEntry (1700000000000 + 31 * DAY) (OtherData JObject).
Definition stale_storage : Storage :=
  mkStorage (Some {[ PROMPT_ENHANCED := [stale_entry; fresh_entry] ]})
    (Some 2%Z) (Some 2%Z) (Some (1700000000000 + 31 * DAY)%Z).
Definition cleanup_env : Env := mkEnv (1700000000000 + 31 * DAY) false false.

(** ** The message handler *)

(** What a run of the handler does, in order. *)
Inductive event : Type :=
  | CallProcessEnhancement (prompt : string) (options : option Options)
  | CallLogUsage (action : string) (d : usage_data)
  | SendResponse (r : Response)
  | SetTimeoutRetry (retryCount : nat).

Definition NO_PROMPT : string := "No prompt provided".

Definition improvement_percent (originalLength enhancedLength : Z) : JsNumber.number :=
  JsNumber.Math_round
    (JsNumber.mul
       (JsNumber.div
          (JsNumber.sub (JsNumber.of_Z enhancedLength) (JsNumber.of_Z originalLength))
          (JsNumber.of_Z originalLength))
       (JsNumber.of_Z 100)).

(** The answer to a request without a prompt. *)
Definition REJECTION : Response := mkResponse false None None (Some NO_PROMPT).

(** [!prompt || !prompt.trim()] on a string. *)
Definition no_prompt (prompt : string) : bool :=
  is_empty prompt || is_empty (trim prompt).

(** One run of [handlePromptEnhancement] on a request whose prompt is a
    string: the events in order and the storage afterwards.  The result
    is [None] where the rewriter hands back a value that is not a
    string, which [processEnhancement_string] below excludes. *)
Definition handlePromptEnhancement (env : Env) (prompt : string)
    (options : option Options) (retryCount : nat) (st : Storage)
  : option (list event * Storage) :=
  if no_prompt prompt then
    Some ([SendResponse REJECTION], st)
  else
    match processEnhancement (JStr prompt) options with
    | Return (JStr enhanced) =>
        let original_length := Z.of_nat (String.length prompt) in
        let enhanced_length := Z.of_nat (String.length enhanced) in
        let d := EnhancementData original_length enhanced_length options
                   "google_search" in
        Some ([ CallProcessEnhancement prompt options;
                CallLogUsage PROMPT_ENHANCED d;
                SendResponse
                  (mkResponse true (Some enhanced)
                     (Some (mkStats original_length enhanced_length
                              (improvement_percent original_length enhanced_length)))
                     None) ],
              logUsage env PROMPT_ENHANCED d st)
    | Return _ => None
    | Throw error =>
        if (retryCount <? CONFIG.maxRetries)%nat
           && (includes (message error) "storage"
               || includes (message error) "quota")
        then Some ([ CallProcessEnhancement prompt options;
                     SetTimeoutRetry (retryCount + 1) ], st)
        else Some ([ CallProcessEnhancement prompt options;
                     SendResponse
                       (mkResponse false None None (Some (message error))) ],
                   st)
    end.

(** ** The modal's request (content script) *)

Definition DEFAULT_PROMPT : string := "Hello world".

(** [promptInput.value.trim() || 'Hello world'] *)
Definition modal_prompt (value : string) : string :=
  let trimmed := trim value in
  if is_empty trimmed then DEFAULT_PROMPT else trimmed.

Definition modal_options : Options := mkOptions true true false.

(** The modal's [enhancePrompt] as the background worker serves it: the
    listener calls the handler with [request.data] and no retry count. *)
Definition modal_enhancePrompt (env : Env) (value : string) (st : Storage)
  : option (list event * Storage) :=
  handlePromptEnhancement env (modal_prompt value) (Some modal_options) 0 st.

(** ** Repeated application *)

(** A caller that feeds the rewriter its own output: [n] applications
    with the same options, the first one on [prompt]. *)
Fixpoint processEnhancement_times (n : nat) (prompt : jsval)
    (options : option Options) : completion Error jsval :=
  match n with
  | O => Return prompt
  | S k =>
      enhanced ← processEnhancement prompt options;
      processEnhancement_times k enhanced options
  end.

(** [n] copies of a string, one after the other. *)
Fixpoint copies (n : nat) (s : string) : string :=
  match n with
  | O => EmptyString
  | S k => s +:+ copies k s
  end.

(** The character [c] does not occur in [g]. *)
Definition free_of (c : ascii) (g : string) : Prop :=
  includes g (String c EmptyString) = false.

(** ** Usage statistics under a clock that never goes back *)

From stdpp Require Import sorting.

(** The states that calls of [logUsage] and runs of the cleanup lead to
    when [Date.now()] never decreases from one call to the next; the
    index is the time of the last call. *)
Inductive reachable_until : Z -> Storage -> Prop :=
  | ru_initial t : reachable_until t initial_storage
  | ru_logUsage t env action d st :
      reachable_until t st -> (t <= now env)%Z ->
      reachable_until (now env) (logUsage env action d st)
  | ru_cleanup t env st :
      reachable_until t st -> (t <= now env)%Z ->
      reachable_until (now env) (cleanupOldUsageData env st).

Definition older_or_same (e1 e2 : entry) : Prop :=
  (timestamp e1 <= timestamp e2)%Z.

(** The events are stored oldest first. *)
Definition in_timestamp_order (events : list entry) : Prop :=
  StronglySorted older_or_same events.

(** ** Settings, statistics and the monthly reset (background worker) *)

(** The events of a run that answer the request. *)
Definition responses (events : list event) : list Response :=
  omap (fun e => match e with SendResponse r => Some r | _ => None end) events.


(** What JavaScript takes for true in a condition. *)
Definition truthy (v : jsval) : bool :=
  match v with
  | JUndefined | JNull => false
  | JBool b => b
  | JNum (S754_zero _) | JNum S754_nan => false
  | JNum _ => true
  | JStr s => negb (is_empty s)
  | JObject => true
  end.

(** [v !== false] *)
Definition is_not_false (v : jsval) : bool :=
  match v with
  | JBool false => false
  | _ => true
  end.

(** [v || false] *)
Definition or_false (v : jsval) : jsval :=
  if truthy v then v else JBool false.

(** [result.key] on the object a storage read hands back: a key that is
    not stored reads [undefined]. *)
Definition get_key (result : gmap string jsval) (key : string) : jsval :=
  or_default (result !! key) JUndefined.

(** [chrome.storage.sync.set(data)]: the keys of [data] are written,
    the others stay. *)
Definition storage_set (data sync : gmap string jsval) : gmap string jsval :=
  data ∪ sync.

Record Settings : Type := mkSettings {
  settings_enhanceClarity : bool;
  settings_addContext : bool;
  settings_improveStructure : jsval
}.

Record StatsReport : Type := mkStatsReport {
  report_totalPrompts : Z;
  report_totalEnhancements : Z;
  report_lastUpdated : Z;
  report_usageStats : gmap string (list entry)
}.

(** What the listener can answer. *)
Inductive reply : Type :=
  | ReplyEnhance (r : Response)
  | ReplySettings (settings : Settings)
  | ReplyStats (stats : StatsReport)
  | ReplySuccess
  | ReplyError (error : string).

(** The settings written at installation. *)
Definition DEFAULT_SETTINGS : gmap string jsval :=
  <["enhanceClarity" := JBool true]>
    (<["addContext" := JBool true]>
       (<["improveStructure" := JBool false]> ∅)).

(** An options object as a message carries it. *)
Definition settings_data (o : Options) : gmap string jsval :=
  <["enhanceClarity" := JBool (enhanceClarity o)]>
    (<["addContext" := JBool (addContext o)]>
       (<["improveStructure" := JBool (improveStructure o)]> ∅)).

(** [chrome.runtime.onInstalled]: on 'install' the defaults are
    written; [lastError] is the failure of that write, if any. *)
Definition onInstalled (reason : string) (lastError : option string)
    (sync : gmap string jsval) : gmap string jsval :=
  if bool_decide (reason = "install")
  then match lastError with
       | None => storage_set DEFAULT_SETTINGS sync
       | Some _ => sync
       end
  else sync.

(** [handleGetSettings]; [lastError] is [chrome.runtime.lastError] in
    the callback of the read, with its message. *)
Definition handleGetSettings (lastError : option string)
    (sync : gmap string jsval) : reply :=
  match lastError with
  | Some message => ReplyError message
  | None =>
      ReplySettings
        (mkSettings (is_not_false (get_key sync "enhanceClarity"))
           (is_not_false (get_key sync "addContext"))
           (or_false (get_key sync "improveStructure")))
  end.

Definition SETTINGS_UPDATED : string := "settings_updated".

(** [handleUpdateSettings]: the write of [data], the answer, and then
    the usage event; a failed write is answered with its message and
    nothing is logged. *)
Definition handleUpdateSettings (lastError : option string) (env : Env)
    (data : gmap string jsval) (sync : gmap string jsval) (st : Storage)
  : reply * gmap string jsval * Storage :=
  match lastError with
  | Some message => (ReplyError message, sync, st)
  | None =>
      (ReplySuccess, storage_set data sync,
       logUsage env SETTINGS_UPDATED (OtherData JObject) st)
  end.

(** [handleGetStats] *)
Definition handleGetStats (lastError : option string) (st : Storage) : reply :=
  match lastError with
  | Some message => ReplyError message
  | None =>
      ReplyStats
        (mkStatsReport (or_zero (totalPrompts st))
           (or_zero (totalEnhancements st))
           (or_zero (lastUpdated st))
           (or_default (usageStats st) ∅))
  end.

(** The three keys of the monthly reset in [chrome.storage.local]. *)
Record Monthly : Type := mkMonthly {
  monthlyPrompts : option Z;
  monthlyEnhancements : option Z;
  lastMonthlyReset : option Z
}.

Definition ONE_MONTH : Z := (30 * 24 * 60 * 60 * 1000)%Z.

Definition checkAndResetMonthlyStats_try (env : Env) (m : Monthly)
  : completion logged_error Monthly :=
  _ ← storage_promise (get_lastError env);
  let lastReset := or_zero (lastMonthlyReset m) in
  let now := now env in
  let oneMonth := ONE_MONTH in
  if (now - lastReset >? oneMonth)%Z then
    _ ← storage_promise (set_lastError env);
    Return (mkMonthly (Some 0%Z) (Some 0%Z) (Some now))
  else Return m.

Definition checkAndResetMonthlyStats (env : Env) (m : Monthly) : Monthly :=
  returned (try_catch (checkAndResetMonthlyStats_try env m)
              (fun _ => Return m)).

(** *** The listener *)

(** A request as the listener takes it; [ReqOther] is a request whose
    action is none of the four. *)
Inductive request : Type :=
  | ReqEnhancePrompt (prompt : string) (options : option Options)
  | ReqGetSettings
  | ReqUpdateSettings (data : gmap string jsval)
  | ReqGetStats
  | ReqOther (action : string).

Definition KNOWN_ACTIONS : list string :=
  ["enhancePrompt"; "getSettings"; "updateSettings"; "getStats"].

Record Background : Type := mkBackground {
  bg_sync : gmap string jsval;
  bg_local : Storage
}.

(** One message: the answers sent, whether the listener returns [true]
    (the channel stays open for the answer), and the storages
    afterwards.  [env] is what the calls on [chrome.storage.local] find,
    [lastError] what the handler's own storage call finds.  The result
    is [None] outside the model: a [ReqOther] that carries one of the
    four actions. *)
Definition onMessage (env : Env) (lastError : option string)
    (req : request) (bg : Background)
  : option (list reply * bool * Background) :=
  match req with
  | ReqEnhancePrompt prompt options =>
      '(events, st) ← handlePromptEnhancement env prompt options 0 (bg_local bg);
      Some (ReplyEnhance <$> responses events, true,
            mkBackground (bg_sync bg) st)
  | ReqGetSettings =>
      Some ([handleGetSettings lastError (bg_sync bg)], true, bg)
  | ReqUpdateSettings data =>
      let '(r, sync, st) :=
        handleUpdateSettings lastError env data (bg_sync bg) (bg_local bg) in
      Some ([r], true, mkBackground sync st)
  | ReqGetStats =>
      Some ([handleGetStats lastError (bg_local bg)], true, bg)
  | ReqOther action =>
      if bool_decide (action ∈ KNOWN_ACTIONS) then None
      else Some ([ReplyError "Unknown action"], false, bg)
  end.

(** ** The content script: finding the search bar *)

Module Content.

Definition QUOTE : string := String "034" EmptyString.

Definition maxRetries : nat := 3.

Definition searchBarSelectors : list string :=
  [ "input[name=" +:+ QUOTE +:+ "q" +:+ QUOTE +:+ "]";
    "textarea[name=" +:+ QUOTE +:+ "q" +:+ QUOTE +:+ "]";
    ".gLFyf";
    "[aria-label=" +:+ QUOTE +:+ "Search" +:+ QUOTE +:+ "]";
    "[data-ved]" ].

(** What the script reads of an element. *)
Record Element : Type := mkElement {
  offsetParent_is_null : bool;
  offsetWidth : Z;
  offsetHeight : Z;
  placeholder : option string;
  ariaLabel : option string;
  ai_enhanced : bool
}.

(** What the script reads of the document: the answer of
    [document.querySelector] to a selector, and the list that
    [document.querySelectorAll('input[type=text], textarea')] gives. *)
Record Page : Type := mkPage {
  querySelector : string -> option Element;
  text_inputs : list Element
}.

(** [element && element.offsetParent !== null && element.offsetWidth > 0] *)
Definition shown_with_width (e : Element) : bool :=
  negb (offsetParent_is_null e) && (0 <? offsetWidth e)%Z.

(** The [for] loop over the selectors: the first selector whose element
    passes the test decides. *)
Fixpoint first_selector_match (page : Page) (selectors : list string)
  : option Element :=
  match selectors with
  | [] => None
  | selector :: rest =>
      match querySelector page selector with
      | Some element =>
          if shown_with_width element then Some element
          else first_selector_match page rest
      | None => first_selector_match page rest
      end
  end.

(** [text?.toLowerCase().includes(word)] as a condition. *)
Definition names_word (text : option string) (word : string) : bool :=
  match text with
  | Some t => includes (toLowerCase t) word
  | None => false
  end.

Definition looks_like_search_bar (input : Element) : bool :=
  negb (offsetParent_is_null input)
  && (200 <? offsetWidth input)%Z
  && (30 <? offsetHeight input)%Z
  && (names_word (placeholder input) "search"
      || names_word (placeholder input) "google"
      || names_word (ariaLabel input) "search").

Fixpoint first_input_match (inputs : list Element) : option Element :=
  match inputs with
  | [] => None
  | input :: rest =>
      if looks_like_search_bar input then Some input
      else first_input_match rest
  end.

(** [findGoogleSearchBar]: the element found, if any, and the retry
    count of the call that the timer will make, if one is set. *)
Definition findGoogleSearchBar (page : Page) (retryCount : nat)
  : option Element * option nat :=
  match first_selector_match page searchBarSelectors with
  | Some element => (Some element, None)
  | None =>
      match first_input_match (text_inputs page) with
      | Some input => (Some input, None)
      | None =>
          if (retryCount <? maxRetries)%nat
          then (None, Some (retryCount + 1))
          else (None, None)
      end
  end.

(** The chain of calls that the timers make while the page stays as
    [page n] at the [n]-th call: the number of calls made.  [fuel]
    bounds the recursion. *)
Fixpoint search_calls (fuel : nat) (page : nat -> Page) (retryCount : nat)
  : option nat :=
  match fuel with
  | O => None
  | S fuel' =>
      match (findGoogleSearchBar (page retryCount) retryCount).2 with
      | Some next => S <$> search_calls fuel' page next
      | None => Some 1
      end
  end.

(** ** The content script: the button and the modal *)

(** The modal element: its class [show], its inline [style.display],
    and the inline display of its result section. *)
Record ModalElement : Type := mkModal {
  has_show : bool;
  inline_display : option string;
  result_display : string
}.

(** The modal as [createEnhancementModal] builds it. *)
Definition new_modal : ModalElement := mkModal false None "none".


(** The variables of the script. *)
Record State : Type := mkState {
  isModalOpen : bool;
  enhancementButton : bool;
  enhancementModal : option ModalElement;
  isInitialized : bool
}.


Definition createEnhancementModal (s : State) : State :=
  match enhancementModal s with
  | Some _ => s
  | None =>
      mkState (isModalOpen s) (enhancementButton s) (Some new_modal)
        (isInitialized s)
  end.

Definition addEnhancementButton (s : State) : State :=
  createEnhancementModal
    (mkState (isModalOpen s) true (enhancementModal s) (isInitialized s)).

Definition setupEnhancement (page : Page) (s : State) : State :=
  match (findGoogleSearchBar page 0).1 with
  | Some searchBar =>
      if ai_enhanced searchBar then s else addEnhancementButton s
  | None => s
  end.

Definition init (page : Page) (s : State) : State :=
  if isInitialized s then s
  else
    let s := setupEnhancement page s in
    mkState (isModalOpen s) (enhancementButton s) (enhancementModal s) true.

Definition positionModal (m : ModalElement) : ModalElement :=
  mkModal (has_show m) (Some "block") (result_display m).

Definition openModal (s : State) : State :=
  match enhancementModal s with
  | None => s
  | Some m =>
      let m := positionModal m in
      let m := mkModal true (inline_display m) (result_display m) in
      mkState true (enhancementButton s) (Some m) (isInitialized s)
  end.

Definition closeModal (s : State) : State :=
  match enhancementModal s with
  | None => s
  | Some m =>
      mkState false (enhancementButton s)
        (Some (mkModal false (inline_display m) "none")) (isInitialized s)
  end.

Definition toggleModal (s : State) : State :=
  if isModalOpen s then closeModal s else openModal s.

(** Where a click lands. *)
Inductive click_target : Type := InModal | InButton | Elsewhere.

(** [handleOutsideClick]; calling [contains] on a variable that is
    still [null] raises [TypeError], and nothing catches it. *)
Definition handleOutsideClick (target : click_target) (s : State)
  : completion TypeError State :=
  if isModalOpen s then
    _ ← (match enhancementModal s with
         | Some _ => Return ()
         | None => Throw mkTypeError
         end);
    if match target with InModal => true | _ => false end then Return s
    else
      _ ← (if enhancementButton s then Return () else Throw mkTypeError);
      if match target with InButton => true | _ => false end then Return s
      else Return (closeModal s)
  else Return s.

(** What happens to the script: it starts on a page, the timers of the
    search retry fire, the user clicks the button or somewhere else. *)
Inductive action : Type :=
  | Start (page : Page)
  | RetryTimer (page : Page) (retryCount : nat)
  | ClickButton
  | Click (target : click_target).

Definition step (a : action) (s : State) : completion TypeError State :=
  match a with
  | Start page => Return (init page s)
  | RetryTimer page retryCount =>
      let _ := findGoogleSearchBar page retryCount in Return s
  | ClickButton => Return (toggleModal s)
  | Click target => handleOutsideClick target s
  end.




(** ** The content script: the request of the modal *)

(** What [chrome.runtime.sendMessage] comes back with: the answer of the
    background worker, or [chrome.runtime.lastError] with its message,
    the request not having reached the worker. *)
Inductive transport : Type :=
  | Delivered
  | NotDelivered (message : string).

(** What a call of [enhancePrompt] does to the page, in order. *)
Inductive ui_event : Type :=
  | ButtonLoading
  | HideResult
  | SendMessage (prompt : string) (options : Options)
  | ShowResult (text : option string)
  | Notification (message type : string)
  | RetryScheduled (retryCount : nat)
  | ButtonReset.

Definition is_send (e : ui_event) : bool :=
  match e with SendMessage _ _ => true | _ => false end.

Definition is_notification (e : ui_event) : bool :=
  match e with Notification _ _ => true | _ => false end.

Definition count_events (p : ui_event -> bool) (events : list ui_event) : nat :=
  length (List.filter p events).

(** The errors the script retries on. *)
Definition transient (message : string) : bool :=
  includes message "Could not establish connection"
  || includes message "Extension context invalidated".

(** The [catch] of [enhancePrompt]: a retry where one is left and the
    error is transient, a notification otherwise. *)
Definition on_error (message : string) (retryCount : nat)
  : list ui_event * option nat :=
  if (retryCount <? maxRetries)%nat && transient message
  then ([RetryScheduled (retryCount + 1)], Some (retryCount + 1))
  else ([Notification ("Failed to enhance prompt: " +:+ message) "error"], None).

(** [response.error || 'Enhancement failed'] *)
Definition error_or_default (error : option string) : string :=
  match error with
  | Some e => if is_empty e then "Enhancement failed" else e
  | None => "Enhancement failed"
  end.

(** One call of [enhancePrompt] with the modal in place: what it does to
    the page, the retry count of the call the timer will make (if one
    is set), and the storage of the background worker afterwards.
    [value] is what the textarea holds.  The result is [None] where the
    worker does not answer exactly once, which does not happen (see
    [handlePromptEnhancement_one_response]). *)
Definition enhancePrompt (value : string) (t : transport) (env : Env)
    (retryCount : nat) (st : Storage)
  : option (list ui_event * option nat * Storage) :=
  let opening :=
    [ButtonLoading; HideResult; SendMessage (modal_prompt value) modal_options] in
  match t with
  | NotDelivered message =>
      let '(events, retry) := on_error message retryCount in
      Some (opening ++ events ++ [ButtonReset], retry, st)
  | Delivered =>
      '(handled, st') ← modal_enhancePrompt env value st;
      match responses handled with
      | [response] =>
          if success response then
            Some (opening
                  ++ [ ShowResult (enhancedPrompt response);
                       Notification "Prompt enhanced successfully!" "success";
                       ButtonReset ],
                  None, st')
          else
            let '(events, retry) :=
              on_error (error_or_default (error response)) retryCount in
            Some (opening ++ events ++ [ButtonReset], retry, st')
      | _ => None
      end
  end.

(** What the [n]-th call of a click finds: the textarea, the transport,
    the clock and storage of the worker. *)
Record Attempt : Type := mkAttempt {
  textarea : string;
  sent : transport;
  worker : Env
}.

(** A click on Enhance and the calls its timers make. *)
Fixpoint enhancePrompt_run (fuel : nat) (world : nat -> Attempt)
    (retryCount : nat) (st : Storage) : option (list ui_event * Storage) :=
  match fuel with
  | O => None
  | S fuel' =>
      let a := world retryCount in
      '(events, retry, st') ←
        enhancePrompt (textarea a) (sent a) (worker a) retryCount st;
      match retry with
      | None => Some (events, st')
      | Some next =>
          '(later, st'') ← enhancePrompt_run fuel' world next st';
          Some (events ++ later, st'')
      end
  end.

End Content.

(** * Properties *)

(** ** Strings *)

Section StringFacts.

Implicit Types a b c s t g : string.

Lemma append_cons ch a b : String ch a +:+ b = String ch (a +:+ b).
Proof. reflexivity. Qed.

Lemma append_empty_l a : "" +:+ a = a.
Proof. reflexivity. Qed.

Lemma append_empty_r a : a +:+ "" = a.
Proof.
  induction a as [|ch a IH]; [reflexivity|].
  by rewrite append_cons, IH.
Qed.

Lemma append_assoc a b c : (a +:+ b) +:+ c = a +:+ (b +:+ c).
Proof.
  induction a as [|ch a IH]; [reflexivity|].
  by rewrite !append_cons, IH.
Qed.

Lemma length_append a b :
  String.length (a +:+ b) = String.length a + String.length b.
Proof.
  induction a as [|ch a IH]; [reflexivity|].
  rewrite append_cons. simpl. by rewrite IH.
Qed.

Lemma toLowerCase_append a b :
  toLowerCase (a +:+ b) = toLowerCase a +:+ toLowerCase b.
Proof.
  induction a as [|ch a IH]; [reflexivity|].
  rewrite append_cons. simpl. by rewrite IH, append_cons.
Qed.

Lemma prefix_append g s t :
  String.prefix g s = true -> String.prefix g (s +:+ t) = true.
Proof.
  revert s. induction g as [|ch g IH]; intros s H.
  - by destruct (s +:+ t).
  - destruct s as [|ch' s]; [discriminate|].
    rewrite append_cons. simpl in *.
    destruct (ascii_dec ch ch'); [auto | discriminate].
Qed.

Lemma includes_append_l a b g :
  includes a g = true -> includes (a +:+ b) g = true.
Proof.
  induction a as [|ch a IH]; intros H.
  - simpl in H. rewrite orb_false_r in H.
    destruct g; [|discriminate]. by destruct b.
  - rewrite append_cons. simpl in *.
    apply orb_true_iff in H as [H|H]; apply orb_true_iff.
    + left. by apply (prefix_append _ (String ch a)).
    + right. auto.
Qed.

Lemma includes_append_r a b g :
  includes b g = true -> includes (a +:+ b) g = true.
Proof.
  intros H. induction a as [|ch a IH]; [done|].
  rewrite append_cons. simpl. rewrite IH. apply orb_true_r.
Qed.

Lemma mentions_append_l a b guards :
  mentions a guards = true -> mentions (a +:+ b) guards = true.
Proof.
  unfold mentions. rewrite toLowerCase_append, !existsb_exists.
  intros (g & Hin & Hg). exists g. split; [done|]. by apply includes_append_l.
Qed.

Lemma mentions_append_r a b guards :
  mentions b guards = true -> mentions (a +:+ b) guards = true.
Proof.
  unfold mentions. rewrite toLowerCase_append, !existsb_exists.
  intros (g & Hin & Hg). exists g. split; [done|]. by apply includes_append_r.
Qed.

Lemma mentions_one text g guards :
  In g guards -> includes (toLowerCase text) g = true ->
  mentions text guards = true.
Proof. intros Hin Hg. apply existsb_exists. eauto. Qed.

End StringFacts.

(** ** The steps on strings *)

Section Steps.

Implicit Types s t : string.

Lemma step_string text s : step text (JStr s) = JStr (text s).
Proof. reflexivity. Qed.

Lemma processEnhancement_string o s :
  processEnhancement (JStr s) (Some o) = Return (JStr (enhanced_text o s)).
Proof. by destruct o as [[] [] []]. Qed.

Lemma processEnhancement_undefined_options prompt :
  processEnhancement prompt None = Throw (mkError PROCESS_FAILED).
Proof. reflexivity. Qed.

(** Case analysis on the guards of a step, innermost first. *)
Ltac guard_case :=
  match goal with
  | |- context [includes (toLowerCase ?t) ?g] =>
      lazymatch t with
      | context [includes] => fail
      | _ => let b := fresh "b" in
             generalize (includes (toLowerCase t) g); intros b; destruct b
      end
  end; cbv beta iota zeta delta [negb andb orb].

Ltac guard_cases := cbv beta zeta; repeat guard_case; try reflexivity.

(** The steps with their guards read as [mentions]. *)
Lemma clarity_text_eq s :
  clarity_text s =
  let enhanced :=
    if mentions s CLARITY_PREFIX_GUARDS then s else CLARITY_PREFIX +:+ s in
  if mentions enhanced CLARITY_CLOSING_GUARDS
  then enhanced else enhanced +:+ CLARITY_CLOSING.
Proof.
  unfold clarity_text, mentions, CLARITY_PREFIX_GUARDS, CLARITY_CLOSING_GUARDS,
    existsb. guard_cases.
Qed.

Lemma context_text_eq s :
  context_text s =
  let enhanced :=
    if mentions s CONTEXT_PREFIX_GUARDS then s else CONTEXT_PREFIX +:+ s in
  if mentions enhanced CONTEXT_CLOSING_GUARDS
  then enhanced else enhanced +:+ CONTEXT_CLOSING.
Proof.
  unfold context_text, mentions, CONTEXT_PREFIX_GUARDS, CONTEXT_CLOSING_GUARDS,
    existsb. guard_cases.
Qed.

Lemma structure_text_eq s :
  structure_text s =
  let enhanced :=
    if mentions s STRUCTURE_ORGANIZE_GUARDS then s else s +:+ STRUCTURE_ORGANIZE in
  if mentions enhanced STRUCTURE_SUMMARY_GUARDS
  then enhanced else enhanced +:+ STRUCTURE_SUMMARY.
Proof.
  unfold structure_text, mentions, STRUCTURE_ORGANIZE_GUARDS,
    STRUCTURE_SUMMARY_GUARDS, existsb. guard_cases.
Qed.

Lemma extends_refl s : extends s s.
Proof. exists "", "". by rewrite append_empty_l, append_empty_r. Qed.

Lemma extends_trans s t r : extends s t -> extends t r -> extends s r.
Proof.
  intros (a & b & ->) (a' & b' & ->). exists (a' +:+ a), (b +:+ b').
  by rewrite !append_assoc.
Qed.

Lemma extends_prepend p s : extends s (p +:+ s).
Proof. exists p, "". by rewrite append_empty_r. Qed.

Lemma extends_append s q : extends s (s +:+ q).
Proof. by exists "", q. Qed.

Lemma extends_length s r : extends s r -> String.length s <= String.length r.
Proof. intros (a & b & ->). rewrite !length_append. lia. Qed.

Lemma extends_mentions s r guards :
  extends s r -> mentions s guards = true -> mentions r guards = true.
Proof.
  intros (a & b & ->) H. by apply mentions_append_r, mentions_append_l.
Qed.

Lemma clarity_text_extends s : extends s (clarity_text s).
Proof.
  rewrite clarity_text_eq. cbv zeta.
  repeat case_match; eauto using extends_refl, extends_prepend,
    extends_append, extends_trans.
Qed.

Lemma context_text_extends s : extends s (context_text s).
Proof.
  rewrite context_text_eq. cbv zeta.
  repeat case_match; eauto using extends_refl, extends_prepend,
    extends_append, extends_trans.
Qed.

Lemma structure_text_extends s : extends s (structure_text s).
Proof.
  rewrite structure_text_eq. cbv zeta.
  repeat case_match; eauto using extends_refl, extends_prepend,
    extends_append, extends_trans.
Qed.

Lemma enhanced_text_extends o s : extends s (enhanced_text o s).
Proof.
  unfold enhanced_text. cbv zeta.
  eapply extends_trans;
    [|destruct (improveStructure o);
      [apply structure_text_extends | apply extends_refl]].
  eapply extends_trans;
    [|destruct (addContext o);
      [apply context_text_extends | apply extends_refl]].
  destruct (enhanceClarity o);
    [apply clarity_text_extends | apply extends_refl].
Qed.

(** Each insertion carries one of its own guard substrings, the closing
    sentence of the clarity step apart. *)
Lemma insertions_mention_their_guards :
  mentions CLARITY_PREFIX CLARITY_PREFIX_GUARDS = true
  /\ mentions CLARITY_CLOSING CLARITY_CLOSING_GUARDS = false
  /\ mentions CONTEXT_PREFIX CONTEXT_PREFIX_GUARDS = true
  /\ mentions CONTEXT_CLOSING CONTEXT_CLOSING_GUARDS = true
  /\ mentions STRUCTURE_ORGANIZE STRUCTURE_ORGANIZE_GUARDS = true
  /\ mentions STRUCTURE_SUMMARY STRUCTURE_SUMMARY_GUARDS = true.
Proof. vm_compute. tauto. Qed.

(** After a step, each of its two guards is met, the guard of the
    clarity step's closing sentence apart. *)
Lemma clarity_text_mentions s :
  mentions (clarity_text s) CLARITY_PREFIX_GUARDS = true.
Proof.
  destruct insertions_mention_their_guards as (Hp & _).
  rewrite clarity_text_eq. cbv zeta.
  destruct (mentions s CLARITY_PREFIX_GUARDS) eqn:Hs;
    case_match; auto using mentions_append_l.
Qed.

Lemma context_text_mentions s :
  mentions (context_text s) CONTEXT_PREFIX_GUARDS = true
  /\ mentions (context_text s) CONTEXT_CLOSING_GUARDS = true.
Proof.
  destruct insertions_mention_their_guards as (_ & _ & Hp & Hc & _).
  rewrite context_text_eq. cbv zeta.
  destruct (mentions s CONTEXT_PREFIX_GUARDS) eqn:Hs;
    case_match; auto using mentions_append_l, mentions_append_r.
Qed.

Lemma structure_text_mentions s :
  mentions (structure_text s) STRUCTURE_ORGANIZE_GUARDS = true
  /\ mentions (structure_text s) STRUCTURE_SUMMARY_GUARDS = true.
Proof.
  destruct insertions_mention_their_guards as (_ & _ & _ & _ & Ho & Hs).
  rewrite structure_text_eq. cbv zeta.
  destruct (mentions s STRUCTURE_ORGANIZE_GUARDS) eqn:Hg;
    case_match; auto using mentions_append_l, mentions_append_r.
Qed.

(** A met guard suppresses its insertion. *)
Lemma clarity_prefix_suppressed s :
  mentions s CLARITY_PREFIX_GUARDS = true ->
  clarity_text s = s \/ clarity_text s = s +:+ CLARITY_CLOSING.
Proof. intros H. rewrite clarity_text_eq, H. cbv zeta. case_match; auto. Qed.

Lemma clarity_closing_suppressed s :
  mentions s CLARITY_CLOSING_GUARDS = true ->
  clarity_text s = s \/ clarity_text s = CLARITY_PREFIX +:+ s.
Proof.
  intros H. rewrite clarity_text_eq. cbv zeta.
  destruct (mentions s CLARITY_PREFIX_GUARDS).
  - rewrite H. auto.
  - rewrite (mentions_append_r _ _ _ H). auto.
Qed.

Lemma context_prefix_suppressed s :
  mentions s CONTEXT_PREFIX_GUARDS = true ->
  context_text s = s \/ context_text s = s +:+ CONTEXT_CLOSING.
Proof. intros H. rewrite context_text_eq, H. cbv zeta. case_match; auto. Qed.

Lemma context_closing_suppressed s :
  mentions s CONTEXT_CLOSING_GUARDS = true ->
  context_text s = s \/ context_text s = CONTEXT_PREFIX +:+ s.
Proof.
  intros H. rewrite context_text_eq. cbv zeta.
  destruct (mentions s CONTEXT_PREFIX_GUARDS).
  - rewrite H. auto.
  - rewrite (mentions_append_r _ _ _ H). auto.
Qed.

Lemma structure_organize_suppressed s :
  mentions s STRUCTURE_ORGANIZE_GUARDS = true ->
  structure_text s = s \/ structure_text s = s +:+ STRUCTURE_SUMMARY.
Proof. intros H. rewrite structure_text_eq, H. cbv zeta. case_match; auto. Qed.

Lemma structure_summary_suppressed s :
  mentions s STRUCTURE_SUMMARY_GUARDS = true ->
  structure_text s = s \/ structure_text s = s +:+ STRUCTURE_ORGANIZE.
Proof.
  intros H. rewrite structure_text_eq. cbv zeta.
  destruct (mentions s STRUCTURE_ORGANIZE_GUARDS).
  - rewrite H. auto.
  - rewrite (mentions_append_l _ _ _ H). auto.
Qed.

Lemma context_text_fixed s :
  mentions s CONTEXT_PREFIX_GUARDS = true ->
  mentions s CONTEXT_CLOSING_GUARDS = true ->
  context_text s = s.
Proof. intros H1 H2. by rewrite context_text_eq, H1; cbv zeta; rewrite H2. Qed.

Lemma structure_text_fixed s :
  mentions s STRUCTURE_ORGANIZE_GUARDS = true ->
  mentions s STRUCTURE_SUMMARY_GUARDS = true ->
  structure_text s = s.
Proof. intros H1 H2. by rewrite structure_text_eq, H1; cbv zeta; rewrite H2. Qed.

End Steps.

(** ** The rewriter *)

Section Rewriter.

Implicit Types s t r : string.

Lemma enhanced_text_mentions o s :
  (enhanceClarity o = true ->
     mentions (enhanced_text o s) CLARITY_PREFIX_GUARDS = true)
  /\ (addContext o = true ->
        mentions (enhanced_text o s) CONTEXT_PREFIX_GUARDS = true
        /\ mentions (enhanced_text o s) CONTEXT_CLOSING_GUARDS = true)
  /\ (improveStructure o = true ->
        mentions (enhanced_text o s) STRUCTURE_ORGANIZE_GUARDS = true
        /\ mentions (enhanced_text o s) STRUCTURE_SUMMARY_GUARDS = true).
Proof.
  unfold enhanced_text. cbv zeta.
  remember (if enhanceClarity o then clarity_text s else s) as c eqn:Ec.
  remember (if addContext o then context_text c else c) as x eqn:Ex.
  remember (if improveStructure o then structure_text x else x) as t eqn:Et.
  assert (Hcx : extends c x).
  { subst x. destruct (addContext o);
      [apply context_text_extends | apply extends_refl]. }
  assert (Hxt : extends x t).
  { subst t. destruct (improveStructure o);
      [apply structure_text_extends | apply extends_refl]. }
  split; [|split].
  - intros H. rewrite H in Ec.
    apply (extends_mentions x t); [done|].
    apply (extends_mentions c x); [done|].
    subst c. apply clarity_text_mentions.
  - intros H. rewrite H in Ex.
    destruct (context_text_mentions c) as [H1 H2]. rewrite <- Ex in H1, H2.
    split; by apply (extends_mentions x t).
  - intros H. rewrite H in Et. subst t. apply structure_text_mentions.
Qed.

(** On a text that meets the guards of the enabled steps, the rewriter
    adds nothing but, when its guard is not met, the closing sentence of
    the clarity step. *)
Lemma enhanced_text_guarded o r :
  (enhanceClarity o = true -> mentions r CLARITY_PREFIX_GUARDS = true) ->
  (addContext o = true ->
     mentions r CONTEXT_PREFIX_GUARDS = true
     /\ mentions r CONTEXT_CLOSING_GUARDS = true) ->
  (improveStructure o = true ->
     mentions r STRUCTURE_ORGANIZE_GUARDS = true
     /\ mentions r STRUCTURE_SUMMARY_GUARDS = true) ->
  enhanced_text o r = r
  \/ (enhanceClarity o = true
      /\ mentions r CLARITY_CLOSING_GUARDS = false
      /\ enhanced_text o r = r +:+ CLARITY_CLOSING).
Proof.
  intros Hc Hx Ht. unfold enhanced_text. cbv zeta.
  assert (Hrest : forall c, extends r c ->
            (if improveStructure o
             then structure_text (if addContext o then context_text c else c)
             else (if addContext o then context_text c else c)) = c).
  { intros c Hext.
    assert ((if addContext o then context_text c else c) = c) as ->.
    { destruct (addContext o); [|done].
      destruct Hx as [H1 H2]; [done|].
      apply context_text_fixed; eauto using extends_mentions. }
    destruct (improveStructure o); [|done].
    destruct Ht as [H1 H2]; [done|].
    apply structure_text_fixed; eauto using extends_mentions. }
  destruct (enhanceClarity o) eqn:Ec.
  - rewrite clarity_text_eq, Hc by done. cbv zeta.
    destruct (mentions r CLARITY_CLOSING_GUARDS) eqn:Hm.
    + left. apply Hrest, extends_refl.
    + right. repeat split. apply Hrest, extends_append.
  - left. apply Hrest, extends_refl.
Qed.

(** C1.  For every prompt that is not empty after trimming and every
    combination of the three options, [processEnhancement] returns, and
    what it returns is a string at least as long as the prompt. *)
Theorem processEnhancement_never_shortens (s : string) (o : Options) :
  trim s <> "" ->
  exists r,
    processEnhancement (JStr s) (Some o) = Return (JStr r)
    /\ String.length s <= String.length r.
Proof.
  intros _. exists (enhanced_text o s). split.
  - apply processEnhancement_string.
  - apply extends_length, enhanced_text_extends.
Qed.

Lemma processEnhancement_never_shortens_witness :
  trim "summarize this article" <> ""
  /\ exists r,
       processEnhancement (JStr "summarize this article")
         (Some (mkOptions true true true)) = Return (JStr r)
       /\ String.length "summarize this article" <= String.length r.
Proof.
  split.
  - discriminate.
  - apply processEnhancement_never_shortens. discriminate.
Defined.

(** C2.  With the three options false, [processEnhancement] returns the
    prompt as it is. *)
Theorem processEnhancement_all_off (s : string) :
  processEnhancement (JStr s) (Some (mkOptions false false false))
  = Return (JStr s).
Proof. reflexivity. Qed.

(** C3.  Applied to its own output with the same options, the rewriter
    inserts again no phrase whose guard is met: the second output is the
    first one, or the first one followed by the clarity step's closing
    sentence where the first output names neither "format" nor "output";
    a text naming "please" gets no second "Please "; and each of the six
    insertions is left out whenever one of its guard substrings occurs
    in the text. *)
Theorem second_application_respects_guards (s : string) (o : Options) :
  (exists r1 r2,
      processEnhancement (JStr s) (Some o) = Return (JStr r1)
      /\ processEnhancement (JStr r1) (Some o) = Return (JStr r2)
      /\ (r2 = r1
          \/ (enhanceClarity o = true
              /\ mentions r1 CLARITY_CLOSING_GUARDS = false
              /\ r2 = r1 +:+ CLARITY_CLOSING)))
  /\ (forall t, includes (toLowerCase t) "please" = true ->
        enhanceClarityLogic (JStr t) = JStr t
        \/ enhanceClarityLogic (JStr t) = JStr (t +:+ CLARITY_CLOSING))
  /\ (forall t g, includes (toLowerCase t) g = true ->
        (In g CLARITY_PREFIX_GUARDS ->
           enhanceClarityLogic (JStr t) = JStr t
           \/ enhanceClarityLogic (JStr t) = JStr (t +:+ CLARITY_CLOSING))
        /\ (In g CLARITY_CLOSING_GUARDS ->
              enhanceClarityLogic (JStr t) = JStr t
              \/ enhanceClarityLogic (JStr t) = JStr (CLARITY_PREFIX +:+ t))
        /\ (In g CONTEXT_PREFIX_GUARDS ->
              addContextLogic (JStr t) = JStr t
              \/ addContextLogic (JStr t) = JStr (t +:+ CONTEXT_CLOSING))
        /\ (In g CONTEXT_CLOSING_GUARDS ->
              addContextLogic (JStr t) = JStr t
              \/ addContextLogic (JStr t) = JStr (CONTEXT_PREFIX +:+ t))
        /\ (In g STRUCTURE_ORGANIZE_GUARDS ->
              improveStructureLogic (JStr t) = JStr t
              \/ improveStructureLogic (JStr t) = JStr (t +:+ STRUCTURE_SUMMARY))
        /\ (In g STRUCTURE_SUMMARY_GUARDS ->
              improveStructureLogic (JStr t) = JStr t
              \/ improveStructureLogic (JStr t) = JStr (t +:+ STRUCTURE_ORGANIZE))).
Proof.
  assert (Hstep : forall (text : string -> string) t (a b : string),
             text t = a \/ text t = b ->
             step text (JStr t) = JStr a \/ step text (JStr t) = JStr b).
  { intros text t a b [H|H]; rewrite step_string, H; auto. }
  split; [|split].
  - exists (enhanced_text o s), (enhanced_text o (enhanced_text o s)).
    rewrite !processEnhancement_string.
    destruct (enhanced_text_mentions o s) as (Hc & Hx & Ht).
    destruct (enhanced_text_guarded o (enhanced_text o s) Hc Hx Ht)
      as [E | (E1 & E2 & E3)]; auto 10.
  - intros t H. apply Hstep, clarity_prefix_suppressed.
    eapply mentions_one; [|exact H]. by left.
  - intros t g H.
    repeat split; intros Hin; apply Hstep;
      eauto using clarity_prefix_suppressed, clarity_closing_suppressed,
        context_prefix_suppressed, context_closing_suppressed,
        structure_organize_suppressed, structure_summary_suppressed,
        mentions_one.
Qed.

(** The context step leaves a prompt that names "as a" and "for" as it
    is. *)
Example context_example :
  processEnhancement (JStr "as a teacher, explain this for students")
    (Some (mkOptions false true false))
  = Return (JStr "as a teacher, explain this for students").
Proof. reflexivity. Qed.

(** The closing sentence of the clarity step names neither of its own
    guard substrings, so a second application appends it again. *)
Example clarity_closing_appended_again :
  let o := mkOptions true false false in
  let r1 := "Please summarize this article" +:+ CLARITY_CLOSING in
  processEnhancement (JStr "summarize this article") (Some o) = Return (JStr r1)
  /\ processEnhancement (JStr r1) (Some o) = Return (JStr (r1 +:+ CLARITY_CLOSING)).
Proof. split; reflexivity. Qed.

(** C4.  A step whose [try] block raises returns its prompt as it is,
    and with an options object [processEnhancement] returns: its
    [catch], the one place that throws, is not reached. *)
Theorem steps_absorb_errors (prompt : jsval) (o : Options) :
  (forall e, step_try clarity_text prompt = Throw e ->
     enhanceClarityLogic prompt = prompt)
  /\ (forall e, step_try context_text prompt = Throw e ->
        addContextLogic prompt = prompt)
  /\ (forall e, step_try structure_text prompt = Throw e ->
        improveStructureLogic prompt = prompt)
  /\ (exists enhanced, processEnhancement prompt (Some o) = Return enhanced)
  /\ (forall error, processEnhancement prompt (Some o) <> Throw error).
Proof.
  assert (Hstep : forall text e, step_try text prompt = Throw e ->
             step text prompt = prompt).
  { intros text e H. unfold step. by rewrite H. }
  split; [eauto|]. split; [eauto|]. split; [eauto|]. split.
  - destruct o as [[] [] []]; by eexists.
  - by destruct o as [[] [] []].
Qed.

Lemma steps_absorb_errors_witness :
  step_try clarity_text JNull = Throw mkTypeError
  /\ enhanceClarityLogic JNull = JNull.
Proof.
  split.
  - reflexivity.
  - destruct (steps_absorb_errors JNull (mkOptions true true true)) as (H & _).
    exact (H mkTypeError eq_refl).
Defined.

(** Without an options object the rewriter does throw. *)
Example processEnhancement_throws_without_options :
  processEnhancement (JStr "summarize this article") None
  = Throw (mkError PROCESS_FAILED).
Proof. reflexivity. Qed.

(** C7.  On "summarize this article" with the clarity step alone, the
    result starts with "Please summarize this article" and ends with the
    closing sentence of the clarity step. *)
Theorem clarity_example :
  exists r,
    processEnhancement (JStr "summarize this article")
      (Some (mkOptions true false false)) = Return (JStr r)
    /\ r = "Please summarize this article" +:+ CLARITY_CLOSING
    /\ startsWith r "Please summarize this article" = true
    /\ endsWith r CLARITY_CLOSING = true
    /\ endsWith r "Please provide a clear, well-structured response." = true.
Proof. eexists. repeat split; reflexivity. Qed.

End Rewriter.

(** ** Trimming *)

Section Trim.

Implicit Types s r : string.

Lemma trimStart_head s c r :
  trimStart s = String c r -> is_white_space c = false.
Proof.
  induction s as [|c' s IH]; [discriminate|]. simpl.
  destruct (is_white_space c') eqn:Hc; [done|].
  intros [= <- <-]. done.
Qed.

Lemma trimStart_fixed c r :
  is_white_space c = false -> trimStart (String c r) = String c r.
Proof. intros H. simpl. by rewrite H. Qed.

Lemma trimEnd_head c r :
  is_white_space c = false -> exists r', trimEnd (String c r) = String c r'.
Proof. intros H. simpl. rewrite H. destruct (trimEnd r); eauto. Qed.

Lemma trimEnd_idempotent s : trimEnd (trimEnd s) = trimEnd s.
Proof.
  induction s as [|c s IH]; [done|]. simpl.
  destruct (trimEnd s) as [|d r] eqn:E.
  - destruct (is_white_space c) eqn:Hc; [done|]. simpl. by rewrite Hc.
  - change (trimEnd (String c (String d r))) with
      (match trimEnd (String d r) with
       | EmptyString =>
           if is_white_space c then EmptyString else String c EmptyString
       | r' => String c r'
       end).
    by rewrite IH.
Qed.

Lemma trim_idempotent s : trim (trim s) = trim s.
Proof.
  unfold trim. destruct (trimStart s) as [|c r] eqn:E; [done|].
  apply trimStart_head in E.
  destruct (trimEnd_head c r E) as [r' Hr'].
  rewrite <- (trimEnd_idempotent (String c r)) at 2.
  rewrite Hr', (trimStart_fixed c r' E). done.
Qed.

Lemma trim_empty : trim "" = "".
Proof. reflexivity. Qed.

Lemma is_empty_true s : is_empty s = true <-> s = "".
Proof. by destruct s. Qed.

Lemma is_empty_false s : is_empty s = false <-> s <> "".
Proof. by destruct s. Qed.

Lemma no_prompt_true prompt : no_prompt prompt = true <-> trim prompt = "".
Proof.
  unfold no_prompt. rewrite orb_true_iff, !is_empty_true. split.
  - intros [-> | H]; [apply trim_empty | done].
  - auto.
Qed.

Lemma no_prompt_false prompt : no_prompt prompt = false <-> trim prompt <> "".
Proof.
  rewrite <- no_prompt_true. destruct (no_prompt prompt); split; congruence.
Qed.

End Trim.

(** ** The message handler *)

Section Handler.

Variable env : Env.
Variable st : Storage.

(** The error of the rewriter is not one the handler retries on. *)
Lemma process_failed_not_transient :
  includes PROCESS_FAILED "storage" || includes PROCESS_FAILED "quota" = false.
Proof. reflexivity. Qed.

(** The run on a prompt that passes the check and an options object. *)
Lemma handlePromptEnhancement_enhances prompt o retryCount :
  trim prompt <> "" ->
  let enhanced := enhanced_text o prompt in
  let original_length := Z.of_nat (String.length prompt) in
  let enhanced_length := Z.of_nat (String.length enhanced) in
  let d := EnhancementData original_length enhanced_length (Some o)
             "google_search" in
  handlePromptEnhancement env prompt (Some o) retryCount st
  = Some ([ CallProcessEnhancement prompt (Some o);
            CallLogUsage PROMPT_ENHANCED d;
            SendResponse
              (mkResponse true (Some enhanced)
                 (Some (mkStats original_length enhanced_length
                          (improvement_percent original_length enhanced_length)))
                 None) ],
          logUsage env PROMPT_ENHANCED d st).
Proof.
  intros H. unfold handlePromptEnhancement.
  apply no_prompt_false in H. rewrite H.
  by rewrite processEnhancement_string.
Qed.

(** The run on a prompt that passes the check and no options object:
    the rewriter throws, and the handler answers with its message. *)
Lemma handlePromptEnhancement_fails prompt retryCount :
  trim prompt <> "" ->
  handlePromptEnhancement env prompt None retryCount st
  = Some ([ CallProcessEnhancement prompt None;
            SendResponse (mkResponse false None None (Some PROCESS_FAILED)) ],
          st).
Proof.
  intros H. unfold handlePromptEnhancement.
  apply no_prompt_false in H. rewrite H.
  rewrite processEnhancement_undefined_options.
  change (message (mkError PROCESS_FAILED)) with PROCESS_FAILED.
  by rewrite process_failed_not_transient, andb_false_r.
Qed.

(** The handler is defined on every request whose prompt is a string. *)
Lemma handlePromptEnhancement_total prompt options retryCount :
  is_Some (handlePromptEnhancement env prompt options retryCount st).
Proof.
  destruct (no_prompt prompt) eqn:H.
  - unfold handlePromptEnhancement. by rewrite H.
  - apply no_prompt_false in H. destruct options as [o|].
    + by rewrite handlePromptEnhancement_enhances.
    + by rewrite handlePromptEnhancement_fails.
Qed.

(** C5.  A prompt that is empty or white space only is answered with
    [success: false] and an error string, and nothing else happens: the
    rewriter is not called, no retry is scheduled, the storage is as it
    was.  A prompt that is not empty after trimming goes to the
    rewriter first and never gets that answer. *)
Theorem blank_prompt_rejected (prompt : string) (options : option Options)
    (retryCount : nat) :
  (trim prompt = "" ->
     handlePromptEnhancement env prompt options retryCount st
     = Some ([SendResponse REJECTION], st)
     /\ success REJECTION = false
     /\ error REJECTION = Some "No prompt provided")
  /\ (trim prompt <> "" ->
        exists events st',
          handlePromptEnhancement env prompt options retryCount st
          = Some (events, st')
          /\ events !! 0%nat = Some (CallProcessEnhancement prompt options)
          /\ SendResponse REJECTION ∉ events).
Proof.
  split.
  - intros H. apply no_prompt_true in H.
    unfold handlePromptEnhancement. by rewrite H.
  - intros H. destruct options as [o|].
    + rewrite (handlePromptEnhancement_enhances _ _ _ H). cbv zeta.
      do 2 eexists. split; [reflexivity|]. split; [reflexivity|].
      intros Hin. repeat (apply elem_of_cons in Hin as [Hin|Hin]; [discriminate|]).
      by apply elem_of_nil in Hin.
    + rewrite (handlePromptEnhancement_fails _ _ H).
      do 2 eexists. split; [reflexivity|]. split; [reflexivity|].
      intros Hin. repeat (apply elem_of_cons in Hin as [Hin|Hin]; [discriminate|]).
      by apply elem_of_nil in Hin.
Qed.

End Handler.

Lemma blank_prompt_rejected_witness :
  (trim "   " = ""
   /\ handlePromptEnhancement (mkEnv 1700000000000 false false) "   "
        (Some modal_options) 0 initial_storage
      = Some ([SendResponse REJECTION], initial_storage))
  /\ (trim " hi " <> ""
      /\ exists events st',
           handlePromptEnhancement (mkEnv 1700000000000 false false) " hi "
             (Some modal_options) 0 initial_storage
           = Some (events, st')
           /\ events !! 0%nat
              = Some (CallProcessEnhancement " hi " (Some modal_options))
           /\ SendResponse REJECTION ∉ events).
Proof.
  split.
  - split; [reflexivity|].
    apply (blank_prompt_rejected (mkEnv 1700000000000 false false)
             initial_storage "   " (Some modal_options) 0).
    reflexivity.
  - split; [discriminate|].
    apply (blank_prompt_rejected (mkEnv 1700000000000 false false)
             initial_storage " hi " (Some modal_options) 0).
    discriminate.
Defined.

(** ** The improvement percentage *)

Section Improvement.

Import JsNumber.



(** The number 25 is 25 * 2^48 * 2^(-48). *)
Example of_Z_25 : of_Z 25 = S754_finite false (25 * 2 ^ 48) (-48).
Proof. reflexivity. Qed.

(** The example of the rewriter: 22 code units become 80, and the
    improvement is 264. *)
Example improvement_of_clarity_example :
  String.length "summarize this article" = 22%nat
  /\ String.length ("Please summarize this article" +:+ CLARITY_CLOSING) = 80%nat
  /\ improvement_percent 22 80 = of_Z 264.
Proof. repeat split; reflexivity. Qed.

(** The arithmetic is that of binary64.  For 400 code units that become
    458 (the clarity step on a prompt naming none of its guards) the
    quotient 0.145 is rounded below the tie, and the improvement is 14
    where the exact 14.5 would round to 15. *)
Example improvement_is_binary64 :
  improvement_percent 400 458 = of_Z 14
  /\ ((200 * (458 - 400) + 400) / (2 * 400) = 15)%Z.
Proof. split; reflexivity. Qed.

End Improvement.

(** ** The modal's request *)

Section Modal.

(** C9.  When the textarea of the modal is empty or white space only,
    the request carries "Hello world"; whatever the textarea holds, the
    prompt of the request passes the handler's check, and the handler
    answers with the enhanced prompt. *)
Theorem modal_prompt_never_rejected (env : Env) (st : Storage) (value : string) :
  (trim value = "" -> modal_prompt value = "Hello world")
  /\ (trim value <> "" -> modal_prompt value = trim value)
  /\ no_prompt (modal_prompt value) = false
  /\ exists enhanced d stats,
       modal_enhancePrompt env value st
       = Some ([ CallProcessEnhancement (modal_prompt value) (Some modal_options);
                 CallLogUsage PROMPT_ENHANCED d;
                 SendResponse (mkResponse true (Some enhanced) (Some stats) None) ],
               logUsage env PROMPT_ENHANCED d st).
Proof.
  assert (Hp : trim (modal_prompt value) <> "").
  { unfold modal_prompt. cbv zeta.
    destruct (is_empty (trim value)) eqn:E; [discriminate|].
    rewrite trim_idempotent. by apply is_empty_false. }
  split; [|split; [|split]].
  - intros H. unfold modal_prompt. by rewrite H.
  - intros H. unfold modal_prompt. cbv zeta.
    apply is_empty_false in H. by rewrite H.
  - by apply no_prompt_false.
  - unfold modal_enhancePrompt.
    rewrite (handlePromptEnhancement_enhances env st _ modal_options 0 Hp).
    cbv zeta. by do 3 eexists.
Qed.

Lemma modal_prompt_never_rejected_witness :
  trim "  " = "" /\ modal_prompt "  " = "Hello world".
Proof.
  split; [reflexivity|].
  apply (modal_prompt_never_rejected (mkEnv 1700000000000 false false)
           initial_storage "  ").
  reflexivity.
Defined.

End Modal.

(** ** Usage statistics *)

Section Usage.

(** A call of [logUsage] leaves the storage as it was (a failed read or
    write, or an action named like an inherited property), or writes
    the four keys. *)
Lemma logUsage_cases env action d st :
  logUsage env action d st = st
  \/ exists events,
       ((or_default (usageStats st) ∅) !! action = Some events
        \/ ((or_default (usageStats st) ∅) !! action = None
            /\ (action ∉ Object_prototype_keys) /\ events = []))
       /\ get_lastError env = false /\ set_lastError env = false
       /\ logUsage env action d st
          = mkStorage
              (Some (<[action :=
                         let events := events ++ [mkEntry (now env) d] in
                         if (CONFIG.maxStorageEntries <? length events)%nat
                         then slice_last CONFIG.maxStorageEntries events
                         else events]> (or_default (usageStats st) ∅)))
              (Some (if bool_decide (action = PROMPT_ENHANCED)
                     then or_zero (totalPrompts st) + 1
                     else or_zero (totalPrompts st))%Z)
              (Some (if bool_decide (action = PROMPT_ENHANCED)
                     then or_zero (totalEnhancements st) + 1
                     else or_zero (totalEnhancements st))%Z)
              (Some (now env)).
Proof.
  unfold logUsage, logUsage_try, storage_promise.
  destruct (get_lastError env); [by left|].
  destruct (set_lastError env) eqn:Hset.
  - left. simpl.
    destruct ((or_default (usageStats st) ∅) !! action); simpl.
    + by destruct (bool_decide (action = PROMPT_ENHANCED)); simpl; rewrite ?Hset.
    + destruct (bool_decide (action ∈ Object_prototype_keys)); simpl; [done|].
      by destruct (bool_decide (action = PROMPT_ENHANCED)); simpl; rewrite ?Hset.
  - simpl.
    destruct ((or_default (usageStats st) ∅) !! action) as [events|] eqn:Hl; simpl.
    + right. exists events. repeat split; auto.
      by destruct (bool_decide (action = PROMPT_ENHANCED)); simpl; rewrite ?Hset.
    + destruct (bool_decide (action ∈ Object_prototype_keys)) eqn:Hk; simpl;
        [by left|].
      right. exists []. apply bool_decide_eq_false in Hk. repeat split; auto.
      by destruct (bool_decide (action = PROMPT_ENHANCED)); simpl; rewrite ?Hset.
Qed.

(** With a working storage, a call on 'prompt_enhanced' writes. *)
Lemma logUsage_prompt_enhanced env d st :
  get_lastError env = false -> set_lastError env = false ->
  or_zero (totalPrompts (logUsage env PROMPT_ENHANCED d st))
  = (or_zero (totalPrompts st) + 1)%Z
  /\ or_zero (totalEnhancements (logUsage env PROMPT_ENHANCED d st))
     = (or_zero (totalEnhancements st) + 1)%Z.
Proof.
  intros Hg Hs. unfold logUsage, logUsage_try, storage_promise.
  rewrite Hg, Hs. simpl.
  by destruct ((or_default (usageStats st) ∅) !! PROMPT_ENHANCED).
Qed.

(** C10.  In every state that calls of [logUsage] lead to from the empty
    storage, the two counters read the same.  A call moves them
    together: on 'prompt_enhanced', with the storage read and written,
    both go up by exactly 1; on any other action both read as before;
    and no call changes one without the other. *)
Theorem counters_agree :
  (forall st, reachable st ->
     or_zero (totalPrompts st) = or_zero (totalEnhancements st))
  /\ (forall env d st,
        get_lastError env = false -> set_lastError env = false ->
        or_zero (totalPrompts (logUsage env PROMPT_ENHANCED d st))
        = (or_zero (totalPrompts st) + 1)%Z
        /\ or_zero (totalEnhancements (logUsage env PROMPT_ENHANCED d st))
           = (or_zero (totalEnhancements st) + 1)%Z)
  /\ (forall env action d st,
        action <> PROMPT_ENHANCED ->
        or_zero (totalPrompts (logUsage env action d st))
        = or_zero (totalPrompts st)
        /\ or_zero (totalEnhancements (logUsage env action d st))
           = or_zero (totalEnhancements st))
  /\ (forall env action d st,
        (or_zero (totalPrompts (logUsage env action d st))
         - or_zero (totalPrompts st)
         = or_zero (totalEnhancements (logUsage env action d st))
           - or_zero (totalEnhancements st))%Z).
Proof.
  assert (Hdiff : forall env action d st,
            (or_zero (totalPrompts (logUsage env action d st))
             - or_zero (totalPrompts st)
             = or_zero (totalEnhancements (logUsage env action d st))
               - or_zero (totalEnhancements st))%Z).
  { intros env action d st.
    destruct (logUsage_cases env action d st) as [-> | (ev & _ & _ & _ & ->)];
      [lia|].
    simpl. case_bool_decide; lia. }
  split; [|split; [|split]].
  - induction 1 as [|env action d st _ IH]; [done|].
    specialize (Hdiff env action d st). lia.
  - apply logUsage_prompt_enhanced.
  - intros env action d st Hne.
    destruct (logUsage_cases env action d st) as [-> | (ev & _ & _ & _ & ->)];
      [done|].
    simpl. by rewrite bool_decide_eq_false_2.
  - exact Hdiff.
Qed.

Lemma counters_agree_witness :
  reachable (logUsage (mkEnv 1700000000000 false false) PROMPT_ENHANCED
               (OtherData JObject) initial_storage)
  /\ or_zero (totalPrompts
               (logUsage (mkEnv 1700000000000 false false) PROMPT_ENHANCED
                  (OtherData JObject) initial_storage))
     = or_zero (totalEnhancements
                  (logUsage (mkEnv 1700000000000 false false) PROMPT_ENHANCED
                     (OtherData JObject) initial_storage)).
Proof.
  assert (R : reachable (logUsage (mkEnv 1700000000000 false false)
                           PROMPT_ENHANCED (OtherData JObject) initial_storage))
    by (apply reachable_logUsage, reachable_initial).
  split; [exact R|].
  destruct counters_agree as (H & _). exact (H _ R).
Defined.

(** *** The cap on the stored events *)

Lemma slice_last_length {A} (n : nat) (events : list A) :
  n <= length events -> length (slice_last n events) = n.
Proof. intros H. unfold slice_last. rewrite length_drop. lia. Qed.

Lemma slice_last_short {A} (n : nat) (events : list A) :
  length events <= n -> slice_last n events = events.
Proof.
  intros H. unfold slice_last.
  by replace (length events - n) with 0 by lia.
Qed.

(** With a working storage and an action not named like an inherited
    property, the call writes the four keys. *)
Lemma logUsage_writes env action d st :
  get_lastError env = false -> set_lastError env = false ->
  action ∉ Object_prototype_keys ->
  logUsage env action d st
  = mkStorage
      (Some (<[action :=
                 let events := stored_events st action ++ [mkEntry (now env) d] in
                 if (CONFIG.maxStorageEntries <? length events)%nat
                 then slice_last CONFIG.maxStorageEntries events
                 else events]> (or_default (usageStats st) ∅)))
      (Some (if bool_decide (action = PROMPT_ENHANCED)
             then or_zero (totalPrompts st) + 1
             else or_zero (totalPrompts st))%Z)
      (Some (if bool_decide (action = PROMPT_ENHANCED)
             then or_zero (totalEnhancements st) + 1
             else or_zero (totalEnhancements st))%Z)
      (Some (now env)).
Proof.
  intros Hg Hs Hk.
  unfold logUsage, logUsage_try, storage_promise, stored_events.
  rewrite Hg, Hs, (bool_decide_eq_false_2 _ Hk). simpl.
  destruct ((or_default (usageStats st) ∅) !! action) as [stored|]; simpl;
    by destruct (bool_decide (action = PROMPT_ENHANCED)).
Qed.

(** The list stored for the action is then the old one with the new
    event at its end, cut to its last [CONFIG.maxStorageEntries]
    events. *)
Lemma logUsage_evicts_oldest env action d st :
  get_lastError env = false -> set_lastError env = false ->
  action ∉ Object_prototype_keys ->
  stored_events (logUsage env action d st) action
  = slice_last CONFIG.maxStorageEntries
      (stored_events st action ++ [mkEntry (now env) d]).
Proof.
  intros Hg Hs Hk. rewrite (logUsage_writes env action d st Hg Hs Hk).
  unfold stored_events at 1. simpl. rewrite lookup_insert_eq. simpl.
  destruct (Nat.ltb_spec CONFIG.maxStorageEntries
              (length (stored_events st action ++ [mkEntry (now env) d])));
    [done|].
  by rewrite slice_last_short.
Qed.

Lemma logUsage_within_cap env action d st :
  within_cap st -> within_cap (logUsage env action d st).
Proof.
  intros Hcap.
  destruct (logUsage_cases env action d st) as [-> | (ev & _ & _ & _ & ->)];
    [done|].
  intros a events. simpl. rewrite lookup_insert.
  case_decide as Ha.
  - intros [= <-]. cbv zeta.
    destruct (Nat.ltb_spec CONFIG.maxStorageEntries
                (length (ev ++ [mkEntry (now env) d]))) as [Hlt|Hge].
    + rewrite slice_last_length; lia.
    + done.
  - apply Hcap.
Qed.

Lemma retained_length cutoff events kept :
  retained cutoff events = Some kept -> length kept <= length events.
Proof.
  unfold retained. intros H.
  assert (kept = filter (fun e => (cutoff < timestamp e)%Z) events) as ->
    by (by destruct (filter _ events); simplify_eq).
  apply length_filter.
Qed.

(** What a run of the cleanup does to the storage. *)
Lemma cleanupOldUsageData_cases env st :
  cleanupOldUsageData env st = st
  \/ (get_lastError env = false /\ set_lastError env = false
      /\ (exists action events,
            (or_default (usageStats st) ∅) !! action = Some events
            /\ retained (cutoffDate env) events = None)
      /\ cleanupOldUsageData env st
         = mkStorage
             (Some (omap (retained (cutoffDate env))
                      (or_default (usageStats st) ∅)))
             (totalPrompts st) (totalEnhancements st) (lastUpdated st)).
Proof.
  unfold cleanupOldUsageData, cleanupOldUsageData_try, storage_promise.
  destruct (get_lastError env); [by left|]. simpl.
  case_bool_decide as Hex; [|by left].
  destruct (set_lastError env); [by left|].
  right. split; [done|]. split; [done|]. split; [|done].
  destruct Hex as (action & events & Hl & Hr). eauto.
Qed.

(** Where every action keeps at least one event, the cleanup writes
    nothing: the events older than the cutoff stay in the storage. *)
Lemma cleanupOldUsageData_skips_write env st :
  (forall action events,
     (or_default (usageStats st) ∅) !! action = Some events ->
     exists e, e ∈ events /\ (cutoffDate env < timestamp e)%Z) ->
  cleanupOldUsageData env st = st.
Proof.
  intros Hkeep.
  destruct (cleanupOldUsageData_cases env st)
    as [-> | (_ & _ & (action & events & Hl & Hr) & _)]; [done|].
  destruct (Hkeep action events Hl) as (e & He & Hlt).
  unfold retained in Hr.
  assert (e ∈ filter (fun e => (cutoffDate env < timestamp e)%Z) events)
    as Hin by (by apply list_elem_of_filter).
  destruct (filter _ events); [by apply elem_of_nil in Hin | done].
Qed.

Lemma cleanupOldUsageData_within_cap env st :
  within_cap st -> within_cap (cleanupOldUsageData env st).
Proof.
  intros Hcap.
  destruct (cleanupOldUsageData_cases env st) as [-> | (_ & _ & _ & ->)];
    [done|].
  intros action kept. simpl. rewrite lookup_omap.
  destruct ((or_default (usageStats st) ∅) !! action) as [events|] eqn:Hl;
    [|done].
  simpl. intros Hr. apply retained_length in Hr.
  specialize (Hcap action events Hl). lia.
Qed.

(** The cap holds in every state that calls of [logUsage] and runs of
    the cleanup lead to; the events that [logUsage] drops are the
    oldest. *)
Theorem usage_lists_within_cap :
  (forall st, reachable_with_cleanup st -> within_cap st)
  /\ (forall env action d st,
        get_lastError env = false -> set_lastError env = false ->
        action ∉ Object_prototype_keys ->
        stored_events (logUsage env action d st) action
        = slice_last 100 (stored_events st action ++ [mkEntry (now env) d])).
Proof.
  split.
  - induction 1;
      auto using logUsage_within_cap, cleanupOldUsageData_within_cap.
    intros action events. simpl. by rewrite lookup_empty.
  - apply logUsage_evicts_oldest.
Qed.

Lemma usage_lists_within_cap_witness :
  reachable_with_cleanup (logUsage cleanup_env PROMPT_ENHANCED
                            (OtherData JObject) initial_storage)
  /\ within_cap (logUsage cleanup_env PROMPT_ENHANCED
                   (OtherData JObject) initial_storage).
Proof.
  assert (R : reachable_with_cleanup
                (logUsage cleanup_env PROMPT_ENHANCED (OtherData JObject)
                   initial_storage))
    by (apply rwc_logUsage, rwc_initial).
  split; [exact R|].
  destruct usage_lists_within_cap as (H & _). exact (H _ R).
Defined.

(** C8, the cleanup.  [stale_storage] holds, under one action, an event
    written 31 days before the cleanup and one written at its time.  The
    first is older than the 30 days of [CONFIG.dataRetentionDays], and
    the filter of the cleanup drops it; but no action lost all its
    events, [cleaned] stays false, and the storage is not written: the
    old event is still there after the cleanup. *)
Theorem cleanup_keeps_stale_entry :
  (timestamp stale_entry < cutoffDate cleanup_env)%Z
  /\ retained (cutoffDate cleanup_env) [stale_entry; fresh_entry]
     = Some [fresh_entry]
  /\ cleanupOldUsageData cleanup_env stale_storage = stale_storage
  /\ stored_events (cleanupOldUsageData cleanup_env stale_storage)
       PROMPT_ENHANCED
     = [stale_entry; fresh_entry].
Proof.
  assert (H : cleanupOldUsageData cleanup_env stale_storage = stale_storage).
  { apply cleanupOldUsageData_skips_write. intros action events Hl.
    exists fresh_entry. simpl in Hl.
    apply lookup_singleton_Some in Hl as [_ <-].
    split; [set_solver | reflexivity]. }
  split; [reflexivity|]. split; [reflexivity|]. split; [exact H|].
  rewrite H. unfold stored_events. simpl. by rewrite lookup_singleton_eq.
Qed.

(** Had the same storage a second action with old events only, the
    cleanup would write, and the old event would go. *)
Example cleanup_writes_when_an_action_empties :
  stored_events
    (cleanupOldUsageData cleanup_env
       (mkStorage
          (Some (<["settings_updated" := [stale_entry]]>
                   {[ PROMPT_ENHANCED := [stale_entry; fresh_entry] ]}))
          None None None))
    PROMPT_ENHANCED
  = [fresh_entry].
Proof. vm_compute. reflexivity. Qed.

End Usage.

(** * Further properties *)

(** ** The rewriter: what an insertion can and cannot change *)

Section Separators.

Implicit Types a b g s t r : string.

Lemma prefix_refl s : String.prefix s s = true.
Proof.
  induction s as [|c s IH]; [done|]. simpl.
  by destruct (ascii_dec c c).
Qed.

Lemma includes_refl s : includes s s = true.
Proof.
  destruct s as [|c s]; [done|].
  change (includes (String c s) (String c s))
    with (String.prefix (String c s) (String c s) || includes s (String c s)).
  by rewrite prefix_refl.
Qed.

Lemma includes_extends s r : extends s r -> includes r s = true.
Proof.
  intros (a & b & ->).
  apply includes_append_r, includes_append_l, includes_refl.
Qed.

Lemma free_of_cons c d g : free_of c (String d g) -> c <> d /\ free_of c g.
Proof.
  unfold free_of. simpl. intros H. apply orb_false_iff in H as [H1 H2].
  split; [|done]. intros ->. destruct (ascii_dec d d); [|done].
  by destruct g.
Qed.

(** A guard that has no [c] starts before a [c] or not at all. *)
Lemma prefix_separator g a c b :
  free_of c g -> String.prefix g (a +:+ String c b) = String.prefix g a.
Proof.
  revert a. induction g as [|d g IH]; intros a Hfree.
  - by destruct a.
  - apply free_of_cons in Hfree as [Hne Hfree].
    destruct a as [|e a].
    + rewrite append_empty_l. simpl. by destruct (ascii_dec d c).
    + rewrite append_cons. simpl. destruct (ascii_dec d e); [auto|done].
Qed.

Lemma includes_after_separator g c b :
  g <> "" -> free_of c g -> includes (String c b) g = includes b g.
Proof.
  intros Hne Hfree. destruct g as [|d g]; [done|].
  apply free_of_cons in Hfree as [Hcd _]. simpl.
  by destruct (ascii_dec d c).
Qed.

(** Such a guard occurs in a text around a [c] exactly when it occurs
    on one side of it. *)
Lemma includes_separator g a c b :
  g <> "" -> free_of c g ->
  includes (a +:+ String c b) g = includes a g || includes b g.
Proof.
  intros Hne Hfree. induction a as [|e a IH].
  - rewrite append_empty_l, (includes_after_separator g c b Hne Hfree).
    destruct g; [done|]. done.
  - rewrite append_cons.
    change (includes (String e (a +:+ String c b)) g)
      with (String.prefix g (String e (a +:+ String c b))
            || includes (a +:+ String c b) g).
    rewrite IH, <- append_cons, (prefix_separator g (String e a) c b Hfree).
    change (includes (String e a) g)
      with (String.prefix g (String e a) || includes a g).
    by rewrite orb_assoc.
Qed.

Lemma mentions_separator guards a c b :
  Forall (fun g => g <> "" /\ free_of c g) guards ->
  lower_char c = c ->
  mentions (a +:+ String c b) guards = mentions a guards || mentions b guards.
Proof.
  intros Hg Hc. unfold mentions. rewrite toLowerCase_append. simpl.
  rewrite Hc. induction Hg as [|g guards [Hne Hfree] _ IH]; [done|].
  simpl. rewrite IH, (includes_separator _ _ _ _ Hne Hfree).
  destruct (includes (toLowerCase a) g), (includes (toLowerCase b) g),
    (existsb (includes (toLowerCase a)) guards); done.
Qed.

(** The guards of the clarity step's closing sentence have no space and
    no line feed. *)
Lemma closing_guards_free c :
  c = " "%char \/ c = "010"%char ->
  Forall (fun g => g <> "" /\ free_of c g) CLARITY_CLOSING_GUARDS
  /\ lower_char c = c.
Proof.
  unfold CLARITY_CLOSING_GUARDS, free_of.
  intros [-> | ->]; (split; [|done]); repeat constructor; discriminate.
Qed.

(** No insertion names "format" or "output", nor makes one with its
    neighbour: after any step the text names one exactly when it did
    before. *)
Lemma closing_guards_after_prefix p s :
  mentions p CLARITY_CLOSING_GUARDS = false ->
  mentions ((p +:+ " ") +:+ s) CLARITY_CLOSING_GUARDS
  = mentions s CLARITY_CLOSING_GUARDS.
Proof.
  intros Hp. rewrite append_assoc.
  destruct (closing_guards_free " ") as [Hf Hc]; [by left|].
  change (" " +:+ s) with (String " " s).
  by rewrite (mentions_separator _ _ _ _ Hf Hc), Hp.
Qed.

Lemma closing_guards_after_suffix s q :
  mentions q CLARITY_CLOSING_GUARDS = false ->
  mentions (s +:+ String "010" q) CLARITY_CLOSING_GUARDS
  = mentions s CLARITY_CLOSING_GUARDS.
Proof.
  intros Hq.
  destruct (closing_guards_free "010") as [Hf Hc]; [by right|].
  by rewrite (mentions_separator _ _ _ _ Hf Hc), Hq, orb_false_r.
Qed.

Lemma closing_guards_after_insertion s ins q :
  ins = String "010" q ->
  mentions q CLARITY_CLOSING_GUARDS = false ->
  mentions (s +:+ ins) CLARITY_CLOSING_GUARDS
  = mentions s CLARITY_CLOSING_GUARDS.
Proof. intros ->. apply closing_guards_after_suffix. Qed.

Ltac closing_guards_insertion :=
  erewrite closing_guards_after_insertion; [|reflexivity|reflexivity].

Lemma closing_guards_after_clarity s :
  mentions (clarity_text s) CLARITY_CLOSING_GUARDS
  = mentions s CLARITY_CLOSING_GUARDS.
Proof.
  assert (Hp : mentions (CLARITY_PREFIX +:+ s) CLARITY_CLOSING_GUARDS
               = mentions s CLARITY_CLOSING_GUARDS)
    by (by apply (closing_guards_after_prefix "Please")).
  rewrite clarity_text_eq. cbv zeta.
  destruct (mentions s CLARITY_PREFIX_GUARDS);
    case_match; try closing_guards_insertion; by rewrite ?Hp.
Qed.

Lemma closing_guards_after_context s :
  mentions (context_text s) CLARITY_CLOSING_GUARDS
  = mentions s CLARITY_CLOSING_GUARDS.
Proof.
  assert (Hp : mentions (CONTEXT_PREFIX +:+ s) CLARITY_CLOSING_GUARDS
               = mentions s CLARITY_CLOSING_GUARDS)
    by (by apply (closing_guards_after_prefix
                    "As an AI assistant with expertise in this area,")).
  rewrite context_text_eq. cbv zeta.
  destruct (mentions s CONTEXT_PREFIX_GUARDS);
    case_match; try closing_guards_insertion; by rewrite ?Hp.
Qed.

Lemma closing_guards_after_structure s :
  mentions (structure_text s) CLARITY_CLOSING_GUARDS
  = mentions s CLARITY_CLOSING_GUARDS.
Proof.
  rewrite structure_text_eq. cbv zeta.
  destruct (mentions s STRUCTURE_ORGANIZE_GUARDS);
    case_match; repeat closing_guards_insertion; done.
Qed.

Lemma closing_guards_after_rewriter o s :
  mentions (enhanced_text o s) CLARITY_CLOSING_GUARDS
  = mentions s CLARITY_CLOSING_GUARDS.
Proof.
  unfold enhanced_text. cbv zeta.
  destruct (improveStructure o); rewrite ?closing_guards_after_structure;
    destruct (addContext o); rewrite ?closing_guards_after_context;
    destruct (enhanceClarity o); by rewrite ?closing_guards_after_clarity.
Qed.

End Separators.

(** ** The rewriter: repeated application, growth, what is kept *)

Section RewriterFurther.

Implicit Types s t r : string.

Lemma mentions_two text g1 g2 :
  mentions text [g1; g2]
  = includes (toLowerCase text) g1 || includes (toLowerCase text) g2.
Proof. unfold mentions. simpl. by rewrite orb_false_r. Qed.

Lemma mentions_three text g1 g2 g3 :
  mentions text [g1; g2; g3]
  = includes (toLowerCase text) g1 || includes (toLowerCase text) g2
    || includes (toLowerCase text) g3.
Proof. unfold mentions. simpl. by rewrite orb_false_r, orb_assoc. Qed.

(** On a text that meets the guards of the enabled steps, the rewriter
    appends the clarity step's closing sentence when that step is on and
    the text names neither "format" nor "output", and does nothing
    otherwise. *)
Lemma enhanced_text_on_guarded o r :
  (enhanceClarity o = true -> mentions r CLARITY_PREFIX_GUARDS = true) ->
  (addContext o = true ->
     mentions r CONTEXT_PREFIX_GUARDS = true
     /\ mentions r CONTEXT_CLOSING_GUARDS = true) ->
  (improveStructure o = true ->
     mentions r STRUCTURE_ORGANIZE_GUARDS = true
     /\ mentions r STRUCTURE_SUMMARY_GUARDS = true) ->
  enhanced_text o r
  = if enhanceClarity o && negb (mentions r CLARITY_CLOSING_GUARDS)
    then r +:+ CLARITY_CLOSING else r.
Proof.
  intros Hc Hx Ht.
  destruct (enhanced_text_guarded o r Hc Hx Ht) as [E | (E1 & E2 & E3)].
  - destruct (enhanceClarity o) eqn:Ec; [|done]. rewrite andb_true_l.
    destruct (mentions r CLARITY_CLOSING_GUARDS) eqn:Em; [done|].
    exfalso. revert E. unfold enhanced_text. cbv zeta.
    rewrite Ec, clarity_text_eq, Hc by done. cbv zeta. rewrite Em.
    intros E.
    match type of E with
    | ?lhs = _ => assert (Hext : extends (r +:+ CLARITY_CLOSING) lhs)
    end.
    { eapply extends_trans;
        [|destruct (improveStructure o);
          [apply structure_text_extends | apply extends_refl]].
      destruct (addContext o);
        [apply context_text_extends | apply extends_refl]. }
    rewrite E in Hext. apply extends_length in Hext as Hlen.
    rewrite length_append in Hlen.
    change (String.length CLARITY_CLOSING) with 51 in Hlen. lia.
  - by rewrite E1, E2, E3.
Qed.

Lemma copies_succ_r n s : s +:+ copies n s = copies n s +:+ s.
Proof.
  induction n as [|n IH]; simpl.
  - by rewrite append_empty_r.
  - by rewrite append_assoc, IH.
Qed.

Lemma processEnhancement_times_on_guarded o n r :
  (enhanceClarity o = true -> mentions r CLARITY_PREFIX_GUARDS = true) ->
  (addContext o = true ->
     mentions r CONTEXT_PREFIX_GUARDS = true
     /\ mentions r CONTEXT_CLOSING_GUARDS = true) ->
  (improveStructure o = true ->
     mentions r STRUCTURE_ORGANIZE_GUARDS = true
     /\ mentions r STRUCTURE_SUMMARY_GUARDS = true) ->
  processEnhancement_times n (JStr r) (Some o)
  = Return (JStr (r +:+ copies
                    (if enhanceClarity o
                        && negb (mentions r CLARITY_CLOSING_GUARDS)
                     then n else 0) CLARITY_CLOSING)).
Proof.
  revert r. induction n as [|n IH]; intros r Hc Hx Ht.
  - simpl. by destruct (_ && _); rewrite append_empty_r.
  - change (processEnhancement_times (S n) (JStr r) (Some o))
      with (processEnhancement (JStr r) (Some o)
            ≫= fun e => processEnhancement_times n e (Some o)).
    rewrite processEnhancement_string.
    change (Return (JStr (enhanced_text o r))
            ≫= fun e => processEnhancement_times n e (Some o))
      with (processEnhancement_times n (JStr (enhanced_text o r)) (Some o)).
    rewrite (enhanced_text_on_guarded o r Hc Hx Ht).
    destruct (enhanceClarity o && negb (mentions r CLARITY_CLOSING_GUARDS))
      eqn:Econd.
    + apply andb_true_iff in Econd as [Ec Em]. apply negb_true_iff in Em.
      rewrite IH.
      * erewrite closing_guards_after_insertion; [|reflexivity|reflexivity].
        rewrite Ec, Em. simpl. by rewrite append_assoc.
      * intros _. apply mentions_append_l. auto.
      * intros H. destruct (Hx H). split; by apply mentions_append_l.
      * intros H. destruct (Ht H). split; by apply mentions_append_l.
    + rewrite IH by done. rewrite Econd. done.
Qed.

(** Repeated application.  Fed its own output, the rewriter reaches a
    fixed point at once when the clarity step is off or the prompt names
    "format" or "output"; otherwise every further application appends
    one more copy of the clarity step's closing sentence. *)
Theorem repeated_application (s : string) (o : Options) :
  exists r1,
    processEnhancement (JStr s) (Some o) = Return (JStr r1)
    /\ forall n,
         processEnhancement_times (S n) (JStr s) (Some o)
         = Return (JStr (r1 +:+ copies
                           (if enhanceClarity o
                               && negb (includes (toLowerCase s) "format"
                                        || includes (toLowerCase s) "output")
                            then n else 0) CLARITY_CLOSING)).
Proof.
  exists (enhanced_text o s). split; [apply processEnhancement_string|].
  intros n.
  change (processEnhancement_times (S n) (JStr s) (Some o))
    with (processEnhancement (JStr s) (Some o)
          ≫= fun e => processEnhancement_times n e (Some o)).
  rewrite processEnhancement_string.
  change (Return (JStr (enhanced_text o s))
          ≫= fun e => processEnhancement_times n e (Some o))
    with (processEnhancement_times n (JStr (enhanced_text o s)) (Some o)).
  destruct (enhanced_text_mentions o s) as (Hc & Hx & Ht).
  rewrite (processEnhancement_times_on_guarded o n _ Hc Hx Ht).
  by rewrite closing_guards_after_rewriter, <- mentions_two.
Qed.

(** The context step and the structure step are idempotent, on every
    value. *)
Theorem context_and_structure_idempotent (prompt : jsval) :
  addContextLogic (addContextLogic prompt) = addContextLogic prompt
  /\ improveStructureLogic (improveStructureLogic prompt)
     = improveStructureLogic prompt.
Proof.
  destruct prompt as [| | b | x | s |]; try by split.
  unfold addContextLogic, improveStructureLogic. rewrite !step_string.
  destruct (context_text_mentions s) as [H1 H2].
  destruct (structure_text_mentions s) as [H3 H4].
  by rewrite context_text_fixed, structure_text_fixed.
Qed.

(** A value that is not a string goes through the rewriter as it is. *)
Theorem processEnhancement_passes_other_values (prompt : jsval) (o : Options) :
  (forall s, prompt <> JStr s) ->
  processEnhancement prompt (Some o) = Return prompt.
Proof.
  intros H. destruct prompt as [| | b | x | s |];
    try by destruct o as [[] [] []].
  by destruct (H s).
Qed.

Lemma processEnhancement_passes_other_values_witness :
  (forall s, JNull <> JStr s)
  /\ processEnhancement JNull (Some (mkOptions true true true)) = Return JNull.
Proof.
  split; [discriminate|].
  apply processEnhancement_passes_other_values. discriminate.
Defined.

Lemma clarity_text_length s :
  String.length (clarity_text s) <= String.length s + 58.
Proof.
  rewrite clarity_text_eq. cbv zeta.
  repeat case_match; rewrite ?length_append;
    change (String.length CLARITY_PREFIX) with 7;
    change (String.length CLARITY_CLOSING) with 51; lia.
Qed.

Lemma context_text_length s :
  String.length (context_text s) <= String.length s + 139.
Proof.
  rewrite context_text_eq. cbv zeta.
  repeat case_match; rewrite ?length_append;
    change (String.length CONTEXT_PREFIX) with 48;
    change (String.length CONTEXT_CLOSING) with 91; lia.
Qed.

Lemma structure_text_length s :
  String.length (structure_text s) <= String.length s + 165.
Proof.
  rewrite structure_text_eq. cbv zeta.
  repeat case_match; rewrite ?length_append;
    change (String.length STRUCTURE_ORGANIZE) with 104;
    change (String.length STRUCTURE_SUMMARY) with 61; lia.
Qed.

(** The rewriter adds at most 58 code units for the clarity step, 139
    for the context step and 165 for the structure step, 362 in all;
    the prompt "x" gets all of them. *)
Theorem processEnhancement_growth_bound (s : string) (o : Options) :
  exists r,
    processEnhancement (JStr s) (Some o) = Return (JStr r)
    /\ String.length r
       <= String.length s
          + (if enhanceClarity o then 58 else 0)
          + (if addContext o then 139 else 0)
          + (if improveStructure o then 165 else 0)
    /\ String.length r <= String.length s + 362
    /\ exists r',
         processEnhancement (JStr "x") (Some (mkOptions true true true))
         = Return (JStr r')
         /\ String.length r' = String.length "x" + 362.
Proof.
  exists (enhanced_text o s). split; [apply processEnhancement_string|].
  assert (Hb : String.length (enhanced_text o s)
               <= String.length s
                  + (if enhanceClarity o then 58 else 0)
                  + (if addContext o then 139 else 0)
                  + (if improveStructure o then 165 else 0)).
  { unfold enhanced_text. cbv zeta.
    pose proof (clarity_text_length s) as Hc.
    set (c := if enhanceClarity o then clarity_text s else s).
    assert (String.length c
            <= String.length s + (if enhanceClarity o then 58 else 0))
      by (subst c; destruct (enhanceClarity o); lia).
    pose proof (context_text_length c) as Hx.
    set (x := if addContext o then context_text c else c).
    assert (String.length x
            <= String.length c + (if addContext o then 139 else 0))
      by (subst x; destruct (addContext o); lia).
    pose proof (structure_text_length x) as Ht.
    destruct (improveStructure o); lia. }
  split; [exact Hb|]. split.
  - destruct (enhanceClarity o), (addContext o), (improveStructure o); lia.
  - eexists. split; reflexivity.
Qed.

Lemma structure_text_appends s : exists q, structure_text s = s +:+ q.
Proof.
  rewrite structure_text_eq. cbv zeta.
  repeat case_match; rewrite ?append_assoc; eauto.
  exists "". by rewrite append_empty_r.
Qed.

(** The prompt is kept: it stands in the result as it was given, and
    when the clarity and context steps are off the result starts with
    it. *)
Theorem processEnhancement_keeps_prompt (s : string) (o : Options) :
  exists r,
    processEnhancement (JStr s) (Some o) = Return (JStr r)
    /\ includes r s = true
    /\ (enhanceClarity o = false -> addContext o = false ->
        startsWith r s = true).
Proof.
  exists (enhanced_text o s). split; [apply processEnhancement_string|].
  split; [apply includes_extends, enhanced_text_extends|].
  intros Hc Hx. unfold enhanced_text, startsWith. rewrite Hc, Hx. cbv zeta.
  destruct (improveStructure o); [|apply prefix_refl].
  destruct (structure_text_appends s) as [q ->].
  apply prefix_append, prefix_refl.
Qed.

Lemma processEnhancement_keeps_prompt_witness :
  exists r,
    processEnhancement (JStr "compare two sorting algorithms")
      (Some (mkOptions false false true)) = Return (JStr r)
    /\ includes r "compare two sorting algorithms" = true
    /\ startsWith r "compare two sorting algorithms" = true.
Proof.
  destruct (processEnhancement_keeps_prompt "compare two sorting algorithms"
              (mkOptions false false true)) as (r & H1 & H2 & H3).
  exists r. split; [exact H1|]. split; [exact H2|]. by apply H3.
Defined.

(** What the result always names: with the clarity step on, "please" or
    "could you"; with the context step on, "as a" or "acting as", and
    "for" or "targeting"; with the structure step on, "list", "bullet"
    or "step", and "summary" or "conclusion" (in any letter case). *)
Theorem processEnhancement_result_names_guards (s : string) (o : Options) :
  exists r,
    processEnhancement (JStr s) (Some o) = Return (JStr r)
    /\ (enhanceClarity o = true ->
        includes (toLowerCase r) "please"
        || includes (toLowerCase r) "could you" = true)
    /\ (addContext o = true ->
        includes (toLowerCase r) "as a"
        || includes (toLowerCase r) "acting as" = true
        /\ includes (toLowerCase r) "for"
           || includes (toLowerCase r) "targeting" = true)
    /\ (improveStructure o = true ->
        includes (toLowerCase r) "list" || includes (toLowerCase r) "bullet"
        || includes (toLowerCase r) "step" = true
        /\ includes (toLowerCase r) "summary"
           || includes (toLowerCase r) "conclusion" = true).
Proof.
  exists (enhanced_text o s). split; [apply processEnhancement_string|].
  destruct (enhanced_text_mentions o s) as (Hc & Hx & Ht).
  rewrite <- mentions_three, <- !mentions_two. auto.
Qed.

Lemma processEnhancement_result_names_guards_witness :
  exists r,
    processEnhancement (JStr "summarize this article")
      (Some (mkOptions true false false)) = Return (JStr r)
    /\ includes (toLowerCase r) "please"
       || includes (toLowerCase r) "could you" = true.
Proof.
  destruct (processEnhancement_result_names_guards "summarize this article"
              (mkOptions true false false)) as (r & H1 & H2 & _).
  exists r. split; [exact H1|]. by apply H2.
Defined.

End RewriterFurther.

(** ** Usage statistics: what [logUsage] and the cleanup keep *)

Section UsageFurther.

(** What a call of [logUsage] does to the stored lists: nothing, or the
    list of its action gets the new event at its end and is cut to its
    last [CONFIG.maxStorageEntries] events, the other lists staying as
    they are. *)
Lemma logUsage_stored env action d st :
  logUsage env action d st = st
  \/ (lastUpdated (logUsage env action d st) = Some (now env)
      /\ forall b,
           stored_events (logUsage env action d st) b
           = if decide (b = action)
             then slice_last CONFIG.maxStorageEntries
                    (stored_events st action ++ [mkEntry (now env) d])
             else stored_events st b).
Proof.
  destruct (logUsage_cases env action d st)
    as [-> | (ev & Hev & _ & _ & ->)]; [by left|].
  right. split; [done|]. intros b. unfold stored_events at 1. simpl.
  assert (Hold : stored_events st action = ev).
  { unfold stored_events. by destruct Hev as [-> | (-> & _ & ->)]. }
  rewrite lookup_insert. case_decide as Hb.
  - subst b. rewrite decide_True by done. simpl. rewrite Hold.
    destruct (Nat.ltb_spec CONFIG.maxStorageEntries
                (length (ev ++ [mkEntry (now env) d]))); [done|].
    by rewrite slice_last_short.
  - by rewrite decide_False by done.
Qed.

(** What a run of the cleanup does to the stored lists: nothing, or
    every list keeps exactly its events newer than the cutoff. *)
Lemma cleanupOldUsageData_stored env st :
  cleanupOldUsageData env st = st
  \/ forall action,
       stored_events (cleanupOldUsageData env st) action
       = filter (fun e => (cutoffDate env < timestamp e)%Z)
           (stored_events st action).
Proof.
  destruct (cleanupOldUsageData_cases env st) as [-> | (_ & _ & _ & ->)];
    [by left|].
  right. intros action. unfold stored_events. simpl. rewrite lookup_omap.
  destruct ((or_default (usageStats st) ∅) !! action) as [events|]; [|done].
  simpl. unfold retained. by destruct (filter _ events).
Qed.

(** The cleanup loses no event newer than the cutoff, adds none, keeps
    the order, and leaves the counters and [lastUpdated] as they are. *)
Theorem cleanup_keeps_recent_events (env : Env) (st : Storage) (action : string) :
  (forall e, e ∈ stored_events st action ->
             (cutoffDate env < timestamp e)%Z ->
             e ∈ stored_events (cleanupOldUsageData env st) action)
  /\ stored_events (cleanupOldUsageData env st) action
       `sublist_of` stored_events st action
  /\ totalPrompts (cleanupOldUsageData env st) = totalPrompts st
  /\ totalEnhancements (cleanupOldUsageData env st) = totalEnhancements st
  /\ lastUpdated (cleanupOldUsageData env st) = lastUpdated st.
Proof.
  split; [|split].
  - intros e He Hnew.
    destruct (cleanupOldUsageData_stored env st) as [-> | ->]; [done|].
    by apply list_elem_of_filter.
  - destruct (cleanupOldUsageData_stored env st) as [-> | ->]; [done|].
    apply sublist_filter.
  - by destruct (cleanupOldUsageData_cases env st) as [-> | (_ & _ & _ & ->)].
Qed.

Lemma cleanup_keeps_recent_events_witness :
  fresh_entry ∈ stored_events stale_storage PROMPT_ENHANCED
  /\ (cutoffDate cleanup_env < timestamp fresh_entry)%Z
  /\ fresh_entry
       ∈ stored_events (cleanupOldUsageData cleanup_env stale_storage)
           PROMPT_ENHANCED.
Proof.
  assert (H1 : fresh_entry ∈ stored_events stale_storage PROMPT_ENHANCED).
  { unfold stored_events, stale_storage. simpl.
    rewrite lookup_singleton_eq. simpl. set_solver. }
  assert (H2 : (cutoffDate cleanup_env < timestamp fresh_entry)%Z)
    by reflexivity.
  split; [exact H1|]. split; [exact H2|].
  destruct (cleanup_keeps_recent_events cleanup_env stale_storage
              PROMPT_ENHANCED) as (H & _).
  exact (H fresh_entry H1 H2).
Defined.

(** Run twice at the same time, the cleanup does the second time
    nothing. *)
Theorem cleanup_idempotent (env : Env) (st : Storage) :
  cleanupOldUsageData env (cleanupOldUsageData env st)
  = cleanupOldUsageData env st.
Proof.
  destruct (cleanupOldUsageData_cases env st) as [E | (_ & _ & _ & E)];
    [by rewrite !E|].
  rewrite E. apply cleanupOldUsageData_skips_write.
  intros action kept. simpl. rewrite lookup_omap.
  destruct ((or_default (usageStats st) ∅) !! action) as [events|]; [|done].
  simpl. unfold retained. intros Hk.
  destruct (filter (fun e => (cutoffDate env < timestamp e)%Z) events)
    as [|e kept'] eqn:Hf; [done|].
  injection Hk as <-. exists e. split; [set_solver|].
  assert (He : e ∈ filter (fun e => (cutoffDate env < timestamp e)%Z) events)
    by (rewrite Hf; set_solver).
  by apply list_elem_of_filter in He as [He _].
Qed.

(** A call of [logUsage] changes no list but that of its action. *)
Theorem logUsage_other_actions (env : Env) (action other : string)
    (d : usage_data) (st : Storage) :
  other <> action ->
  stored_events (logUsage env action d st) other = stored_events st other.
Proof.
  intros H.
  destruct (logUsage_stored env action d st) as [-> | [_ ->]]; [done|].
  by rewrite decide_False.
Qed.

Lemma logUsage_other_actions_witness :
  "settings_updated" <> PROMPT_ENHANCED
  /\ stored_events (logUsage cleanup_env PROMPT_ENHANCED (OtherData JObject)
                      stale_storage) "settings_updated"
     = stored_events stale_storage "settings_updated".
Proof.
  split; [discriminate|].
  apply logUsage_other_actions. discriminate.
Defined.

(** No action named like a property of [Object.prototype] is ever
    stored, so a call of [logUsage] on such a name records nothing: the
    [TypeError] of [push] is caught and the storage stays as it was. *)
Theorem inherited_names_are_never_logged (st : Storage) :
  reachable_with_cleanup st ->
  (forall action, action ∈ Object_prototype_keys ->
     (or_default (usageStats st) ∅) !! action = None)
  /\ (forall env action d, action ∈ Object_prototype_keys ->
        logUsage env action d st = st).
Proof.
  intros R.
  assert (Hnone : forall action, action ∈ Object_prototype_keys ->
                    (or_default (usageStats st) ∅) !! action = None).
  { induction R as [|env a d st _ IH|env st _ IH]; intros action Hk.
    - apply lookup_empty.
    - destruct (logUsage_cases env a d st)
        as [-> | (ev & Hev & _ & _ & ->)]; [auto|].
      simpl. rewrite lookup_insert_ne; [auto|].
      intros ->. destruct Hev as [Hev | (_ & Hn & _)]; [|done].
      by rewrite IH in Hev.
    - destruct (cleanupOldUsageData_cases env st)
        as [-> | (_ & _ & _ & ->)]; [auto|].
      simpl. by rewrite lookup_omap, IH. }
  split; [exact Hnone|].
  intros env action d Hk.
  unfold logUsage, logUsage_try, storage_promise.
  destruct (get_lastError env); [done|].
  by rewrite (Hnone action Hk), (bool_decide_eq_true_2 _ Hk).
Qed.

Lemma inherited_names_are_never_logged_witness :
  reachable_with_cleanup initial_storage
  /\ logUsage cleanup_env "constructor" (OtherData JObject) initial_storage
     = initial_storage.
Proof.
  split; [apply rwc_initial|].
  destruct (inherited_names_are_never_logged initial_storage rwc_initial)
    as (_ & H).
  apply H. set_solver.
Defined.

Lemma Forall_of_sublist {A} (P : A -> Prop) (l1 l2 : list A) :
  l1 `sublist_of` l2 -> Forall P l2 -> Forall P l1.
Proof.
  induction 1 as [|x l1 l2 Hs IH|x l1 l2 Hs IH]; [done|..].
  - rewrite !Forall_cons. intros [Hx Hl]. auto.
  - rewrite Forall_cons. intros [_ Hl]. auto.
Qed.

Lemma in_timestamp_order_sublist (l1 l2 : list entry) :
  l1 `sublist_of` l2 -> in_timestamp_order l2 -> in_timestamp_order l1.
Proof.
  unfold in_timestamp_order. induction 1 as [|x l1 l2 Hs IH|x l1 l2 Hs IH].
  - done.
  - rewrite !StronglySorted_cons. intros [Hall Hsorted]. split; [|auto].
    eapply Forall_of_sublist; eauto.
  - rewrite StronglySorted_cons. intros [_ Hsorted]. auto.
Qed.

(** With a clock that never goes back, every list is stored oldest
    first and holds no event of the future; so the events that
    [logUsage] cuts off are those of the smallest timestamps. *)
Theorem events_in_timestamp_order (t : Z) (st : Storage) (action : string) :
  reachable_until t st ->
  in_timestamp_order (stored_events st action)
  /\ Forall (fun e => (timestamp e <= t)%Z) (stored_events st action).
Proof.
  intros R. revert action.
  induction R as [t|t env a d st _ IH Ht|t env st _ IH Ht]; intros action.
  - split; constructor.
  - assert (Hmono : forall b,
              Forall (fun e => (timestamp e <= now env)%Z) (stored_events st b)).
    { intros b. destruct (IH b) as [_ Hb].
      eapply Forall_impl; [exact Hb|]. simpl. intros. lia. }
    destruct (logUsage_stored env a d st) as [-> | [_ Hst]].
    { split; [apply IH | apply Hmono]. }
    rewrite Hst. case_decide; [|split; [apply IH | apply Hmono]].
    assert (Hnew : in_timestamp_order
                     (stored_events st a ++ [mkEntry (now env) d])).
    { apply StronglySorted_app_2.
      - intros e1 e2 H1 H2. apply list_elem_of_singleton in H2 as ->.
        destruct (IH a) as [_ Hb]. rewrite Forall_forall in Hb.
        unfold older_or_same. simpl. specialize (Hb e1 H1). simpl in Hb. lia.
      - apply IH.
      - repeat constructor. }
    split.
    + eapply in_timestamp_order_sublist; [apply sublist_drop | exact Hnew].
    + apply Forall_drop, Forall_app. split; [apply Hmono|].
      apply Forall_singleton. simpl. lia.
  - assert (Hmono : forall b,
              Forall (fun e => (timestamp e <= now env)%Z) (stored_events st b)).
    { intros b. destruct (IH b) as [_ Hb].
      eapply Forall_impl; [exact Hb|]. simpl. intros. lia. }
    destruct (cleanupOldUsageData_stored env st) as [-> | ->].
    { split; [apply IH | apply Hmono]. }
    split.
    + eapply in_timestamp_order_sublist; [apply sublist_filter | apply IH].
    + eapply Forall_of_sublist; [apply sublist_filter | apply Hmono].
Qed.

Lemma events_in_timestamp_order_witness :
  reachable_until (now cleanup_env)
    (logUsage cleanup_env PROMPT_ENHANCED (OtherData JObject) initial_storage)
  /\ in_timestamp_order
       (stored_events
          (logUsage cleanup_env PROMPT_ENHANCED (OtherData JObject)
             initial_storage) PROMPT_ENHANCED).
Proof.
  assert (R : reachable_until (now cleanup_env)
                (logUsage cleanup_env PROMPT_ENHANCED (OtherData JObject)
                   initial_storage)).
  { apply (ru_logUsage 0); [apply ru_initial | done]. }
  split; [exact R|].
  by destruct (events_in_timestamp_order _ _ PROMPT_ENHANCED R).
Defined.

End UsageFurther.

(** ** The handler, the settings and the statistics *)

Section BackgroundFurther.

Lemma handlePromptEnhancement_one_response env prompt options retryCount st :
  exists events st' r,
    handlePromptEnhancement env prompt options retryCount st
    = Some (events, st')
    /\ responses events = [r].
Proof.
  destruct (no_prompt prompt) eqn:Hp.
  - unfold handlePromptEnhancement. rewrite Hp. by do 3 eexists.
  - apply no_prompt_false in Hp. destruct options as [o|].
    + rewrite (handlePromptEnhancement_enhances env st prompt o retryCount Hp).
      cbv zeta. by do 3 eexists.
    + rewrite (handlePromptEnhancement_fails env st prompt retryCount Hp).
      by do 3 eexists.
Qed.


Lemma slice_last_snoc {A} (n : nat) (l : list A) (x : A) :
  0 < n -> exists l', slice_last n (l ++ [x]) = l' ++ [x].
Proof.
  intros Hn. unfold slice_last. rewrite length_app. simpl.
  exists (drop (length l + 1 - n) l).
  rewrite drop_app_le by lia. done.
Qed.

(** After a prompt is enhanced with a working storage, the statistics
    report one prompt and one enhancement more and the time of the
    call, and the newest 'prompt_enhanced' event records the two
    lengths of the answer. *)
Theorem enhancement_shows_in_stats (env : Env) (prompt : string) (o : Options)
    (retryCount : nat) (st : Storage) :
  trim prompt <> "" ->
  get_lastError env = false -> set_lastError env = false ->
  exists events st' enhanced report,
    handlePromptEnhancement env prompt (Some o) retryCount st
    = Some (events, st')
    /\ processEnhancement (JStr prompt) (Some o) = Return (JStr enhanced)
    /\ handleGetStats None st' = ReplyStats report
    /\ report_totalPrompts report = (or_zero (totalPrompts st) + 1)%Z
    /\ report_totalEnhancements report
       = (or_zero (totalEnhancements st) + 1)%Z
    /\ report_lastUpdated report = now env
    /\ last (or_default (report_usageStats report !! PROMPT_ENHANCED) [])
       = Some (mkEntry (now env)
                 (EnhancementData (Z.of_nat (String.length prompt))
                    (Z.of_nat (String.length enhanced)) (Some o)
                    "google_search")).
Proof.
  intros Hp Hg Hs.
  rewrite (handlePromptEnhancement_enhances env st prompt o retryCount Hp).
  cbv zeta. do 4 eexists.
  split; [reflexivity|]. split; [apply processEnhancement_string|].
  split; [reflexivity|]. simpl.
  assert (Hk : PROMPT_ENHANCED ∉ Object_prototype_keys)
    by (apply (bool_decide_unpack _); vm_compute; exact I).
  rewrite (logUsage_writes env PROMPT_ENHANCED _ st Hg Hs Hk). simpl.
  rewrite lookup_insert_eq. simpl.
  repeat split; try done.
  match goal with
  | |- last (if _ then slice_last ?n (?l ++ [?x]) else _) = _ =>
      destruct (slice_last_snoc n l x) as [l' Hl']; [unfold n; lia|];
      case_match; [rewrite Hl'|]; apply last_snoc
  end.
Qed.

Lemma enhancement_shows_in_stats_witness :
  exists events st' report,
    handlePromptEnhancement cleanup_env "summarize this article"
      (Some modal_options) 0 initial_storage = Some (events, st')
    /\ handleGetStats None st' = ReplyStats report
    /\ report_totalPrompts report = 1%Z
    /\ report_totalEnhancements report = 1%Z.
Proof.
  destruct (enhancement_shows_in_stats cleanup_env "summarize this article"
              modal_options 0 initial_storage)
    as (events & st' & enhanced & report & H1 & _ & H3 & H4 & H5 & _);
    [discriminate | reflexivity | reflexivity |].
  exists events, st', report. auto.
Defined.

(** With nothing stored the settings read as clarity on, context on,
    structure off, which is what installation writes; installation
    overwrites what was stored, any other reason leaves it. *)
Theorem settings_defaults (sync : gmap string jsval) (reason : string) :
  handleGetSettings None ∅
  = ReplySettings (mkSettings true true (JBool false))
  /\ handleGetSettings None (onInstalled "install" None sync)
     = ReplySettings (mkSettings true true (JBool false))
  /\ (reason <> "install" -> onInstalled reason None sync = sync).
Proof.
  split; [done|]. split.
  - unfold onInstalled, handleGetSettings, get_key, storage_set,
      DEFAULT_SETTINGS.
    rewrite bool_decide_eq_true_2 by done.
    rewrite !lookup_union_l' by (by simplify_map_eq).
    by simplify_map_eq.
  - intros H. unfold onInstalled. by rewrite bool_decide_eq_false_2.
Qed.

(** Settings that are written are read back: after an update with the
    three flags, the settings read are these flags; a key that an
    update does not carry reads as before. *)
Theorem settings_round_trip (env : Env) (o : Options)
    (data sync : gmap string jsval) (st : Storage) (key : string) :
  handleGetSettings None
    (handleUpdateSettings None env (settings_data o) sync st).1.2
  = ReplySettings
      (mkSettings (enhanceClarity o) (addContext o) (JBool (improveStructure o)))
  /\ (data !! key = None ->
      get_key (handleUpdateSettings None env data sync st).1.2 key
      = get_key sync key).
Proof.
  split.
  - unfold handleUpdateSettings, handleGetSettings, get_key, storage_set,
      settings_data. simpl.
    rewrite !lookup_union_l' by (by simplify_map_eq).
    simplify_map_eq. by destruct o as [[] [] []].
  - intros H. unfold handleUpdateSettings, get_key, storage_set. simpl.
    by rewrite lookup_union_r.
Qed.


Lemma logUsage_other_action_counters env action d st :
  action <> PROMPT_ENHANCED ->
  or_zero (totalPrompts (logUsage env action d st))
  = or_zero (totalPrompts st)
  /\ or_zero (totalEnhancements (logUsage env action d st))
     = or_zero (totalEnhancements st).
Proof.
  intros Hne.
  destruct (logUsage_cases env action d st) as [-> | (ev & _ & _ & _ & ->)];
    [done|].
  simpl. by rewrite bool_decide_eq_false_2.
Qed.

(** An update of the settings never counts as a prompt: the counters
    read as before, whatever the storages do; a failed write is answered
    with its message and changes nothing. *)
Theorem settings_update_counts_nothing (lastError : option string) (env : Env)
    (data sync : gmap string jsval) (st : Storage) :
  or_zero (totalPrompts (handleUpdateSettings lastError env data sync st).2)
  = or_zero (totalPrompts st)
  /\ or_zero (totalEnhancements
                (handleUpdateSettings lastError env data sync st).2)
     = or_zero (totalEnhancements st)
  /\ (forall message, lastError = Some message ->
        handleUpdateSettings lastError env data sync st
        = (ReplyError message, sync, st)).
Proof.
  destruct lastError as [m|]; simpl.
  - repeat split. by intros ? [= ->].
  - destruct (logUsage_other_action_counters env SETTINGS_UPDATED
                (OtherData JObject) st) as [H1 H2]; [done|].
    repeat split; done.
Qed.

End BackgroundFurther.

(** ** The monthly reset and the listener *)

Section ListenerFurther.

Lemma checkAndResetMonthlyStats_cases env m :
  checkAndResetMonthlyStats env m = m
  \/ (get_lastError env = false /\ set_lastError env = false
      /\ (ONE_MONTH < now env - or_zero (lastMonthlyReset m))%Z
      /\ checkAndResetMonthlyStats env m
         = mkMonthly (Some 0%Z) (Some 0%Z) (Some (now env))).
Proof.
  unfold checkAndResetMonthlyStats, checkAndResetMonthlyStats_try,
    storage_promise.
  destruct (get_lastError env); [by left|]. simpl.
  destruct (Z.gtb_spec (now env - or_zero (lastMonthlyReset m)) ONE_MONTH);
    [|by left].
  destruct (set_lastError env); [by left|]. right. done.
Qed.

(** The monthly reset.  More than 30 days after the last reset (or
    when none is recorded), a check with a working storage sets the two
    monthly counters to 0 and records its time; a check within 30 days
    of the last reset changes nothing, so after a reset the next 30 days
    see no other. *)
Theorem monthly_reset_once_a_month (env env' : Env) (m : Monthly) :
  get_lastError env = false -> set_lastError env = false ->
  (ONE_MONTH < now env - or_zero (lastMonthlyReset m))%Z ->
  (now env' - now env <= ONE_MONTH)%Z ->
  checkAndResetMonthlyStats env m
  = mkMonthly (Some 0%Z) (Some 0%Z) (Some (now env))
  /\ checkAndResetMonthlyStats env' (checkAndResetMonthlyStats env m)
     = checkAndResetMonthlyStats env m.
Proof.
  intros Hg Hs Hlate Hsoon.
  assert (E : checkAndResetMonthlyStats env m
              = mkMonthly (Some 0%Z) (Some 0%Z) (Some (now env))).
  { unfold checkAndResetMonthlyStats, checkAndResetMonthlyStats_try,
      storage_promise. rewrite Hg, Hs. simpl.
    destruct (Z.gtb_spec (now env - or_zero (lastMonthlyReset m)) ONE_MONTH);
      [done | lia]. }
  split; [exact E|]. rewrite E.
  destruct (checkAndResetMonthlyStats_cases env'
              (mkMonthly (Some 0%Z) (Some 0%Z) (Some (now env))))
    as [-> | (_ & _ & H & _)]; [done|].
  simpl in H. lia.
Qed.

Lemma monthly_reset_once_a_month_witness :
  checkAndResetMonthlyStats cleanup_env (mkMonthly None None None)
  = mkMonthly (Some 0%Z) (Some 0%Z) (Some (now cleanup_env))
  /\ checkAndResetMonthlyStats (mkEnv (now cleanup_env + DAY) false false)
       (checkAndResetMonthlyStats cleanup_env (mkMonthly None None None))
     = checkAndResetMonthlyStats cleanup_env (mkMonthly None None None).
Proof.
  apply (monthly_reset_once_a_month cleanup_env
           (mkEnv (now cleanup_env + DAY) false false)
           (mkMonthly None None None)); done.
Defined.

(** The listener answers every request once.  The requests that read
    (the settings, the statistics) and the unknown ones change neither
    storage; only an update of the settings changes the settings; an
    unknown action is answered 'Unknown action', and it is the one case
    where the listener does not keep the channel open. *)
Theorem listener_answers_once (env : Env) (lastError : option string)
    (req : request) (bg bg' : Background) (replies : list reply) (keep : bool) :
  onMessage env lastError req bg = Some (replies, keep, bg') ->
  length replies = 1
  /\ ((forall data, req <> ReqUpdateSettings data) -> bg_sync bg' = bg_sync bg)
  /\ ((forall prompt options, req <> ReqEnhancePrompt prompt options) ->
      (forall data, req <> ReqUpdateSettings data) -> bg' = bg)
  /\ (keep = false <->
      exists action, req = ReqOther action
                     /\ replies = [ReplyError "Unknown action"]).
Proof.
  destruct req as [prompt options| |data| |action]; simpl.
  - destruct (handlePromptEnhancement_one_response env prompt options 0
                (bg_local bg)) as (events & st' & r & -> & Hr).
    simpl. intros [= <- <- <-]. rewrite Hr. simpl.
    repeat split; try done.
    + intros H _. by destruct (H prompt options).
    + by intros (? & ? & _).
  - intros [= <- <- <-]. repeat split; try done. by intros (? & ? & _).
  - destruct (handleUpdateSettings lastError env data (bg_sync bg) (bg_local bg))
      as [[r sync] st] eqn:E.
    intros [= <- <- <-]. repeat split; try done.
    + intros H. by destruct (H data).
    + intros _ H. by destruct (H data).
    + by intros (? & ? & _).
  - intros [= <- <- <-]. repeat split; try done. by intros (? & ? & _).
  - case_bool_decide; [done|]. intros [= <- <- <-].
    repeat split; try done. intros _. by exists action.
Qed.

Lemma listener_answers_once_witness :
  onMessage cleanup_env None (ReqOther "resetStats")
    (mkBackground ∅ initial_storage)
  = Some ([ReplyError "Unknown action"], false, mkBackground ∅ initial_storage)
  /\ length [ReplyError "Unknown action"] = 1.
Proof.
  assert (H : onMessage cleanup_env None (ReqOther "resetStats")
                (mkBackground ∅ initial_storage)
              = Some ([ReplyError "Unknown action"], false,
                      mkBackground ∅ initial_storage)) by reflexivity.
  split; [exact H|].
  by destruct (listener_answers_once _ _ _ _ _ _ _ H).
Defined.

End ListenerFurther.

(** ** The content script *)

Section ContentScript.

Import Content.

Lemma first_selector_match_shown page selectors e :
  first_selector_match page selectors = Some e -> shown_with_width e = true.
Proof.
  induction selectors as [|sel rest IH]; [done|]. simpl.
  destruct (querySelector page sel) as [el|]; [|done].
  destruct (shown_with_width el) eqn:E; [|done].
  by intros [= <-].
Qed.

Lemma first_input_match_looks inputs e :
  first_input_match inputs = Some e -> looks_like_search_bar e = true.
Proof.
  induction inputs as [|i rest IH]; [done|]. simpl.
  destruct (looks_like_search_bar i) eqn:E; [|done].
  by intros [= <-].
Qed.

(** The element that [findGoogleSearchBar] hands back is rendered
    ([offsetParent] not null) and has a positive width, and no retry is
    set with it; an element for [input[name=q]] that passes the test is
    preferred to everything else on the page; and when nothing is found
    a retry is set exactly for the retry counts below 3. *)
Theorem search_bar_found (page : Page) (retryCount : nat) :
  (forall e, (findGoogleSearchBar page retryCount).1 = Some e ->
     offsetParent_is_null e = false
     /\ (0 < offsetWidth e)%Z
     /\ (findGoogleSearchBar page retryCount).2 = None)
  /\ (forall e, querySelector page ("input[name=" +:+ QUOTE +:+ "q" +:+ QUOTE +:+ "]")
               = Some e ->
        shown_with_width e = true ->
        findGoogleSearchBar page retryCount = (Some e, None))
  /\ ((findGoogleSearchBar page retryCount).1 = None ->
      (findGoogleSearchBar page retryCount).2
      = if (retryCount <? 3)%nat then Some (retryCount + 1) else None).
Proof.
  unfold findGoogleSearchBar. split; [|split].
  - intros e.
    destruct (first_selector_match page searchBarSelectors) as [el|] eqn:E1.
    + simpl. intros [= ->].
      apply first_selector_match_shown in E1.
      unfold shown_with_width in E1.
      apply andb_true_iff in E1 as [H1 H2].
      apply negb_true_iff in H1. apply Z.ltb_lt in H2. done.
    + destruct (first_input_match (text_inputs page)) as [el|] eqn:E2.
      * simpl. intros [= ->].
        apply first_input_match_looks in E2.
        unfold looks_like_search_bar in E2.
        repeat (apply andb_true_iff in E2 as [E2 ?]).
        apply negb_true_iff in E2.
        match goal with H : (200 <? _)%Z = true |- _ => apply Z.ltb_lt in H end.
        repeat split; [done | lia].
      * by destruct (retryCount <? maxRetries)%nat.
  - intros e Hq Hs.
    change (first_selector_match page searchBarSelectors)
      with (match querySelector page
                    ("input[name=" +:+ QUOTE +:+ "q" +:+ QUOTE +:+ "]") with
            | Some element =>
                if shown_with_width element then Some element
                else first_selector_match page (tl searchBarSelectors)
            | None => first_selector_match page (tl searchBarSelectors)
            end).
    by rewrite Hq, Hs.
  - destruct (first_selector_match page searchBarSelectors);
      [simpl; discriminate|].
    destruct (first_input_match (text_inputs page)); [simpl; discriminate|].
    change 3 with maxRetries.
    by destruct (retryCount <? maxRetries)%nat.
Qed.

Lemma search_calls_bound fuel page retryCount :
  1 <= fuel -> maxRetries + 1 <= retryCount + fuel ->
  exists k, search_calls fuel page retryCount = Some k
            /\ 1 <= k
            /\ (retryCount <= maxRetries -> retryCount + k <= maxRetries + 1).
Proof.
  unfold maxRetries. revert retryCount.
  induction fuel as [|fuel IH]; intros n Hf1 Hf; [lia|].
  simpl. unfold findGoogleSearchBar, maxRetries.
  destruct (first_selector_match _ _);
    [exists 1; simpl; split; [done|split; lia]|].
  destruct (first_input_match _);
    [exists 1; simpl; split; [done|split; lia]|].
  destruct (Nat.ltb_spec n 3) as [Hlt|Hge]; simpl.
  - destruct (IH (n + 1)) as (k & -> & Hk1 & Hk2); [lia | lia |].
    exists (S k). simpl. split; [done|split; lia].
  - exists 1. split; [done|split; lia].
Qed.

(** However the page changes between the calls, the search is made at
    most 4 times: the first call and 3 retries. *)
Theorem search_retries_bounded (page : nat -> Page) :
  exists k, search_calls (maxRetries + 1) page 0 = Some k /\ 1 <= k <= 4.
Proof.
  destruct (search_calls_bound (maxRetries + 1) page 0) as (k & H & H1 & H2);
    [unfold maxRetries; lia..|].
  exists k. unfold maxRetries in *. split; [done|]. lia.
Qed.




End ContentScript.

Section ContentScriptFurther.

Import Content.







End ContentScriptFurther.

(** ** The content script: a click on Enhance *)

Section EnhanceClick.

Import Content.

Lemma modal_prompt_not_blank value : trim (modal_prompt value) <> "".
Proof.
  unfold modal_prompt. cbv zeta.
  destruct (is_empty (trim value)) eqn:E; [discriminate|].
  rewrite trim_idempotent. by apply is_empty_false.
Qed.

Lemma enhancePrompt_delivered value env retryCount st :
  let enhanced := enhanced_text modal_options (modal_prompt value) in
  enhancePrompt value Delivered env retryCount st
  = Some ([ ButtonLoading; HideResult;
            SendMessage (modal_prompt value) modal_options;
            ShowResult (Some enhanced);
            Notification "Prompt enhanced successfully!" "success";
            ButtonReset ],
          None,
          logUsage env PROMPT_ENHANCED
            (EnhancementData (Z.of_nat (String.length (modal_prompt value)))
               (Z.of_nat (String.length enhanced)) (Some modal_options)
               "google_search") st).
Proof.
  unfold enhancePrompt, modal_enhancePrompt.
  by rewrite (handlePromptEnhancement_enhances env st _ modal_options 0
                (modal_prompt_not_blank value)).
Qed.

(** When the request reaches the worker, the modal shows the rewriter's
    result for the trimmed content of the textarea (for "Hello world"
    when that is empty), with the text that was sent standing in it; the
    script reports success, sets no retry, and gives the button back. *)
Theorem modal_shows_enhanced_prompt (value : string) (env : Env)
    (retryCount : nat) (st : Storage) :
  exists enhanced st',
    enhancePrompt value Delivered env retryCount st
    = Some ([ ButtonLoading; HideResult;
              SendMessage (modal_prompt value) modal_options;
              ShowResult (Some enhanced);
              Notification "Prompt enhanced successfully!" "success";
              ButtonReset ],
            None, st')
    /\ processEnhancement (JStr (modal_prompt value)) (Some modal_options)
       = Return (JStr enhanced)
    /\ includes enhanced (modal_prompt value) = true
    /\ (trim value <> "" -> includes enhanced (trim value) = true).
Proof.
  do 2 eexists. split; [apply enhancePrompt_delivered|].
  split; [apply processEnhancement_string|].
  assert (H : includes (enhanced_text modal_options (modal_prompt value))
                (modal_prompt value) = true)
    by apply includes_extends, enhanced_text_extends.
  split; [exact H|].
  intros Hne. revert H. unfold modal_prompt. cbv zeta.
  apply is_empty_false in Hne. by rewrite Hne.
Qed.

Lemma modal_shows_enhanced_prompt_witness :
  exists enhanced st',
    enhancePrompt "  summarize this article " Delivered cleanup_env 0
      initial_storage
    = Some ([ ButtonLoading; HideResult;
              SendMessage "summarize this article" modal_options;
              ShowResult (Some enhanced);
              Notification "Prompt enhanced successfully!" "success";
              ButtonReset ],
            None, st')
    /\ includes enhanced "summarize this article" = true.
Proof.
  destruct (modal_shows_enhanced_prompt "  summarize this article "
              cleanup_env 0 initial_storage)
    as (enhanced & st' & H1 & _ & _ & H4).
  exists enhanced, st'. split; [exact H1|]. by apply H4.
Defined.

Lemma count_events_app p a b :
  count_events p (a ++ b) = count_events p a + count_events p b.
Proof. unfold count_events. by rewrite List.filter_app, length_app. Qed.

(** One call: it sends one message and gives the button back; it sets a
    retry only below the bound, and notifies exactly when it sets none. *)
Lemma enhancePrompt_call value t env retryCount st :
  exists events retry st',
    enhancePrompt value t env retryCount st = Some (events, retry, st')
    /\ count_events is_send events = 1
    /\ last events = Some ButtonReset
    /\ match retry with
       | Some next =>
           next = retryCount + 1 /\ retryCount < maxRetries
           /\ count_events is_notification events = 0
       | None => count_events is_notification events = 1
       end.
Proof.
  destruct t as [|message].
  - do 3 eexists. split; [apply enhancePrompt_delivered|]. by repeat split.
  - unfold enhancePrompt, on_error.
    destruct (Nat.ltb_spec retryCount maxRetries) as [Hlt|Hge]; simpl;
      [destruct (transient message)|]; simpl;
      do 3 eexists; (split; [reflexivity|]); by repeat split.
Qed.

Lemma enhancePrompt_run_bound fuel world retryCount st :
  1 <= fuel -> maxRetries + 1 <= retryCount + fuel ->
  exists events st',
    enhancePrompt_run fuel world retryCount st = Some (events, st')
    /\ 1 <= count_events is_send events
    /\ (retryCount <= maxRetries ->
        retryCount + count_events is_send events <= maxRetries + 1)
    /\ count_events is_notification events = 1
    /\ last events = Some ButtonReset.
Proof.
  revert retryCount st.
  induction fuel as [|fuel IH]; intros n st Hf1 Hf; [lia|].
  simpl.
  pose proof (eq_refl : maxRetries = 3) as HM.
  destruct (enhancePrompt_call (textarea (world n)) (sent (world n))
              (worker (world n)) n st)
    as (events & retry & st' & -> & Hs & Hl & Hr).
  simpl. destruct retry as [next|].
  - destruct Hr as (-> & Hlt & Hn).
    destruct (IH (n + 1) st') as (later & st'' & -> & H1 & H2 & H3 & H4);
      [lia | lia |].
    simpl. do 2 eexists. split; [reflexivity|].
    rewrite !count_events_app, last_app, H4.
    change (maxRetries + 1) with 4 in *.
    repeat split; try done; lia.
  - do 2 eexists. split; [reflexivity|]. repeat split; try done; lia.
Qed.

(** A click on Enhance sends at most 4 messages (the first call and 3
    retries), whatever the transport does and whatever the textarea
    holds at each call; it ends with exactly one notification and with
    the button given back. *)
Theorem enhance_click_bounded (world : nat -> Attempt) (st : Storage) :
  exists events st',
    enhancePrompt_run (maxRetries + 1) world 0 st = Some (events, st')
    /\ 1 <= count_events is_send events <= 4
    /\ count_events is_notification events = 1
    /\ last events = Some ButtonReset.
Proof.
  destruct (enhancePrompt_run_bound (maxRetries + 1) world 0 st)
    as (events & st' & H & H1 & H2 & H3 & H4); [unfold maxRetries; lia..|].
  exists events, st'. unfold maxRetries in *.
  repeat split; try done. lia.
Qed.

End EnhanceClick.
